(** * Personal assistant: contact directory and tagged notes

    A shallow embedding of [zad_z_mod1.py]: the field validators, the
    contact [Record], the [AddressBook] (id allocation and recycling,
    search, birthday window), the [Notebook], the [Tag] manager and the
    two pickle loaders, followed by the properties of the written
    specification that are settled against them.

    Conventions of the embedding.
    - A Python [int] is a [Z]; a [str] is a [string] (its UTF-8 bytes).
      Where the code looks at the characters themselves ([\d] in the
      validators), the text is also given as its code points ([text]).
    - A [dict] is an association list in insertion order; a [set] of ints
      is a [gset Z]; a Python list is a [list].
    - A method that mutates [self] takes the object and returns the new
      one; what it prints is left out unless a property is about it.
    - A call that may raise [ValueError] returns a [result]. *)

From Stdlib Require Import ZArith Lia Bool Ascii.
From stdpp Require Import base decidable option list gmap sets strings sorting pretty.

Local Open Scope Z_scope.

(** ** Python values *)

(** Outcome of a call that may raise [ValueError]. *)
Inductive result (A : Type) : Type :=
| Ok (a : A)
| ValueError.
Arguments Ok {A} a.
Arguments ValueError {A}.

Definition bind {A B : Type} (r : result A) (k : A → result B) : result B :=
  match r with
  | Ok a => k a
  | ValueError => ValueError
  end.

Notation "x ←! r ; k" := (bind r (λ x, k))
  (at level 100, r at next level, right associativity).

(** *** Dictionaries with integer keys, in insertion order *)

Module PyDict.
Section dict.
Context {V : Type}.

Definition dict : Type := list (Z * V).

Definition keys (d : dict) : list Z := d.*1.
Definition values (d : dict) : list V := d.*2.

(** [k in d] *)
Definition mem (k : Z) (d : dict) : bool := bool_decide (k ∈ keys d).

(** [d[k] = v]: an existing key keeps its place, a new one goes last. *)
Fixpoint set (k : Z) (v : V) (d : dict) : dict :=
  match d with
  | [] => [(k, v)]
  | (k', v') :: d' =>
      if decide (k = k') then (k, v) :: d' else (k', v') :: set k v d'
  end.

(** [del d[k]], for a key that is present. *)
Definition del (k : Z) (d : dict) : dict :=
  filter (λ kv, kv.1 ≠ k) d.

End dict.
Arguments dict V : clear implicits.
End PyDict.

(** ** Fields and records *)

(** [class Field]: a holder of one [value]; [Name], [PhoneNumber],
    [EmailAddress] and [BirthDate] add nothing but the check made when the
    object is built. *)
Record Field : Type := mkField { value : string }.

Definition Name := Field.
Definition PhoneNumber := Field.
Definition EmailAddress := Field.
Definition BirthDate := Field.

Record Address : Type := mkAddress {
  street : string;
  city : string;
  postal_code : string;
  country : string;
  address_value : string
}.

(** [class Record] (the word is reserved here, hence the longer name). *)
Record ContactRecord : Type := mkRecord {
  id : option Z;
  name : Name;
  phone_numbers : list PhoneNumber;
  email_addresses : list EmailAddress;
  birthdate : option BirthDate;
  address : option Address
}.

Definition set_id (i : Z) (r : ContactRecord) : ContactRecord :=
  {| id := Some i; name := name r; phone_numbers := phone_numbers r;
     email_addresses := email_addresses r; birthdate := birthdate r;
     address := address r |}.

(** [Record(name, birthdate)] *)
Definition new_record (n : Name) (b : option BirthDate) : ContactRecord :=
  {| id := None; name := n; phone_numbers := []; email_addresses := [];
     birthdate := b; address := None |}.

(** ** The address book: identifiers *)

Record AddressBook : Type := mkBook {
  data : PyDict.dict ContactRecord;
  next_id : Z;
  free_ids : gset Z
}.

(** [AddressBook()] *)
Definition new_book : AddressBook :=
  {| data := []; next_id := 1; free_ids := ∅ |}.

(** The test of the [while] of [add_record]. *)
Definition taken (b : AddressBook) (n : Z) : bool :=
  PyDict.mem n (data b) || bool_decide (n ∈ free_ids b).

(** [while self.next_id in self.data or self.next_id in self.free_ids:
      self.next_id += 1], run for at most [fuel] rounds. *)
Fixpoint advance (fuel : nat) (b : AddressBook) (n : Z) : Z :=
  match fuel with
  | O => n
  | S fuel' => if taken b n then advance fuel' b (n + 1) else n
  end.

(** No identifier above this one is taken, so the loop started at [next_id]
    has left by the time it gets there. *)
Definition top_id (b : AddressBook) : Z :=
  foldr Z.max (next_id b) (PyDict.keys (data b) ++ elements (free_ids b)).

Definition rounds (b : AddressBook) : nat :=
  S (Z.to_nat (top_id b - next_id b)).

(** [min(s)] of a set of ints; Python raises on the empty set, which the
    caller excludes by testing [if self.free_ids] first. *)
Definition py_min (s : gset Z) : Z :=
  match elements s with
  | [] => 0
  | x :: l => foldr Z.min x l
  end.

(** [AddressBook.add_record]: the book after the call and the id written
    into the record. *)
Definition add_record (b : AddressBook) (r : ContactRecord) : AddressBook * Z :=
  let n := advance (rounds b) b (next_id b) in
  if bool_decide (free_ids b ≠ ∅) then
    let rid := py_min (free_ids b) in
    ({| data := PyDict.set rid (set_id rid r) (data b);
        next_id := n;
        free_ids := free_ids b ∖ {[rid]} |}, rid)
  else
    ({| data := PyDict.set n (set_id n r) (data b);
        next_id := n + 1;
        free_ids := free_ids b |}, n).

(** The body of [delete_record_by_id] (and of [delete_record]) once the
    typed text has been read as the integer [record_id]. *)
Definition delete_record_by_id (b : AddressBook) (record_id : Z) : AddressBook :=
  if PyDict.mem record_id (data b) then
    {| data := PyDict.del record_id (data b);
       next_id := next_id b;
       free_ids := free_ids b ∪ {[record_id]} |}
  else b.

(** ** Text *)

Definition code (c : ascii) : Z := Z.of_N (N_of_ascii c).

(** [str.lower] as it is on a text in ASCII: the letters A to Z are
    lowered, every other byte is kept.  On other letters [str.lower] does
    more; what is proved of the search for every text takes the lowering
    as a parameter ([find_record_with]). *)
Definition lower_char (c : ascii) : ascii :=
  if (65 <=? code c) && (code c <=? 90)
  then ascii_of_N (Z.to_N (code c + 32)) else c.

Fixpoint lower (s : string) : string :=
  match s with
  | EmptyString => EmptyString
  | String c s' => String (lower_char c) (lower s')
  end.

(** [sub in s] for two strings. *)
Fixpoint contains (sub s : string) : bool :=
  String.prefix sub s ||
  match s with
  | EmptyString => false
  | String _ s' => contains sub s'
  end.

(** ** Calendar (the [datetime] module) *)

Record date : Type := mkDate { year : Z; month : Z; day : Z }.

Record datetime : Type := mkDatetime {
  date_of : date;          (* [.date()] *)
  hour : Z;
  minute : Z;
  second : Z;
  microsecond : Z
}.

Record timedelta : Type := mkDelta {
  days : Z;
  seconds : Z;
  microseconds : Z
}.

Definition MINYEAR : Z := 1.
Definition MAXYEAR : Z := 9999.

Definition is_leap (y : Z) : bool :=
  (y mod 4 =? 0) && (negb (y mod 100 =? 0) || (y mod 400 =? 0)).

Definition DAYS_IN_MONTH : list Z :=
  [31; 28; 31; 30; 31; 30; 31; 31; 30; 31; 30; 31].

Definition days_in_month (y m : Z) : Z :=
  if (m =? 2) && is_leap y then 29
  else nth (Z.to_nat (m - 1)) DAYS_IN_MONTH 0.

Definition days_before_year (y : Z) : Z :=
  let y := y - 1 in y * 365 + y / 4 - y / 100 + y / 400.

Definition days_before_month (y m : Z) : Z :=
  foldr Z.add 0 (take (Z.to_nat (m - 1)) DAYS_IN_MONTH)
  + (if (2 <? m) && is_leap y then 1 else 0).

(** [date(y, m, d)], with the check of the fields. *)
Definition new_date (y m d : Z) : result date :=
  if (MINYEAR <=? y) && (y <=? MAXYEAR) && (1 <=? m) && (m <=? 12)
     && (1 <=? d) && (d <=? days_in_month y m)
  then Ok (mkDate y m d) else ValueError.

Definition toordinal (d : date) : Z :=
  days_before_year (year d) + days_before_month (year d) (month d) + day d.

(** [d.replace(year=y)] on a date and on a datetime. *)
Definition date_replace_year (d : date) (y : Z) : result date :=
  new_date y (month d) (day d).

Definition replace_year (t : datetime) (y : Z) : result datetime :=
  d ←! date_replace_year (date_of t) y;
  Ok (mkDatetime d (hour t) (minute t) (second t) (microsecond t)).

(** Comparison of the field tuples, as [date._cmp] and [datetime._cmp]. *)
Fixpoint tuple_gt (a b : list Z) : bool :=
  match a, b with
  | x :: a', y :: b' => (y <? x) || ((x =? y) && tuple_gt a' b')
  | _ :: _, [] => true
  | [], _ => false
  end.

Definition date_fields (d : date) : list Z := [year d; month d; day d].

Definition datetime_fields (t : datetime) : list Z :=
  date_fields (date_of t) ++ [hour t; minute t; second t; microsecond t].

Definition date_gt (a b : date) : bool :=
  tuple_gt (date_fields a) (date_fields b).

Definition datetime_gt (a b : datetime) : bool :=
  tuple_gt (datetime_fields a) (datetime_fields b).

(** [timedelta(days, seconds, microseconds)]: the carries are taken so that
    seconds and microseconds are in range, the days take the rest. *)
Definition new_timedelta (d s us : Z) : timedelta :=
  let s := s + us / 1000000 in
  let us := us mod 1000000 in
  let d := d + s / 86400 in
  let s := s mod 86400 in
  mkDelta d s us.

Definition date_sub (a b : date) : timedelta :=
  new_timedelta (toordinal a - toordinal b) 0 0.

Definition day_seconds (t : datetime) : Z :=
  second t + minute t * 60 + hour t * 3600.

Definition datetime_sub (a b : datetime) : timedelta :=
  new_timedelta (toordinal (date_of a) - toordinal (date_of b))
                (day_seconds a - day_seconds b)
                (microsecond a - microsecond b).

(** *** [datetime.strptime(text, "%Y-%m-%d")]

    [strptime] is Python's own (module [_strptime]), not code of the
    program.  It turns the format into a regular expression, matches it at
    the start of the text, refuses text that is left over, reads the three
    groups as integers and builds the date.  The expressions below are the
    library's for the three directives.

    This first model reads the text byte by byte, a character class being
    a range of codes, and gives [\d] as the digits 0 to 9: that is what
    [strptime] does on a text in ASCII, and only there.  The model on code
    points ([Unicode.strptime], further down) takes [\d] in full; the two
    are one on ASCII text ([strptime_text]). *)

Inductive regex : Type :=
| Lit (c : ascii)
| Cls (lo hi : ascii)
| Cat (r1 r2 : regex)
| Alt (r1 r2 : regex)
| Grp (g : string) (r : regex).

(** What was read between [s] and its suffix [s']. *)
Definition consumed (s s' : string) : string :=
  String.substring 0 (String.length s - String.length s')%nat s.

(** Backtracking match at the start of [s]: the alternatives are tried
    from the left, and [k] is what remains to be matched. *)
Fixpoint rmatch {A : Type} (r : regex) (s : string) (groups : gmap string string)
    (k : string → gmap string string → option A) : option A :=
  match r with
  | Lit c =>
      match s with
      | String x s' => if code x =? code c then k s' groups else None
      | EmptyString => None
      end
  | Cls lo hi =>
      match s with
      | String x s' =>
          if (code lo <=? code x) && (code x <=? code hi)
          then k s' groups else None
      | EmptyString => None
      end
  | Cat r1 r2 => rmatch r1 s groups (λ s' g', rmatch r2 s' g' k)
  | Alt r1 r2 =>
      match rmatch r1 s groups k with
      | Some a => Some a
      | None => rmatch r2 s groups k
      end
  | Grp g r =>
      rmatch r s groups (λ s' g', k s' (<[g := consumed s s']> g'))
  end.

Definition re_digit : regex := Cls "0" "9".

(** [(?P<Y>\d\d\d\d)] *)
Definition re_Y : regex :=
  Grp "Y" (Cat re_digit (Cat re_digit (Cat re_digit re_digit))).

(** [(?P<m>1[0-2]|0[1-9]|[1-9])] *)
Definition re_m : regex :=
  Grp "m" (Alt (Cat (Lit "1") (Cls "0" "2"))
          (Alt (Cat (Lit "0") (Cls "1" "9"))
               (Cls "1" "9"))).

(** [(?P<d>3[0-1]|[1-2]\d|0[1-9]|[1-9]| [1-9])] *)
Definition re_d : regex :=
  Grp "d" (Alt (Cat (Lit "3") (Cls "0" "1"))
          (Alt (Cat (Cls "1" "2") re_digit)
          (Alt (Cat (Lit "0") (Cls "1" "9"))
          (Alt (Cls "1" "9")
               (Cat (Lit " ") (Cls "1" "9")))))).

Definition format_regex : regex :=
  Cat re_Y (Cat (Lit "-") (Cat re_m (Cat (Lit "-") re_d))).

(** [int(text)] for the text of a group in ASCII: digits, after blanks. *)
Fixpoint int_digits (acc : Z) (s : string) : Z :=
  match s with
  | EmptyString => acc
  | String c s' => int_digits (acc * 10 + (code c - 48)) s'
  end.

Fixpoint py_int (s : string) : Z :=
  match s with
  | String c s' => if code c =? code " " then py_int s' else int_digits 0 s
  | EmptyString => int_digits 0 s
  end.

Definition strptime (text : string) : result datetime :=
  match rmatch format_regex text ∅ (λ rest g, Some (rest, g)) with
  | None => ValueError
  | Some (rest, g) =>
      if bool_decide (rest = "") then
        d ←! new_date (py_int (g !!! "Y")) (py_int (g !!! "m")) (py_int (g !!! "d"));
        Ok (mkDatetime d 0 0 0 0)
      else ValueError
  end.

(** [BirthDate.validate_birthdate], on a text in ASCII *)
Definition validate_birthdate (v : string) : bool :=
  match strptime v with
  | Ok _ => true
  | ValueError => false
  end.

(** [BirthDate(value)] *)
Definition new_BirthDate (v : string) : result BirthDate :=
  if validate_birthdate v then Ok (mkField v) else ValueError.

(** ** The record: days to the next birthday *)

(** What [Record.days_to_birthdate] returns: a text when there is no
    birth date, a number of days otherwise. *)
Inductive days_answer : Type :=
| NoBirthdate (msg : string)
| Days (n : Z).

(** [Record.days_to_birthdate], with [now] for [datetime.now()]. *)
Definition days_to_birthdate (now : datetime) (r : ContactRecord) : result days_answer :=
  match birthdate r with
  | None => Ok (NoBirthdate "Brak daty urodzenia")
  | Some b =>
      if bool_decide (value b = "") then Ok (NoBirthdate "Brak daty urodzenia")
      else
        let today := now in
        bday ←! strptime (value b);
        next_birthday ←! replace_year bday (year (date_of today));
        next_birthday ←!
          (if datetime_gt today next_birthday
           then replace_year next_birthday (year (date_of today) + 1)
           else Ok next_birthday);
        Ok (Days (days (datetime_sub next_birthday today)))
  end.

(** ** The address book: search and birthdays *)

(** One round of the loop of [find_record]: what it appends for [record].
    Each inner [for] appends at its first hit and leaves. *)
Definition find_in_record (search_term : string) (record : ContactRecord)
    : list ContactRecord :=
  if contains (lower search_term) (lower (value (name record))) then [record]
  else
    (if existsb (λ p, contains search_term (value p)) (phone_numbers record)
     then [record] else [])
    ++
    (if existsb (λ e, contains search_term (value e)) (email_addresses record)
     then [record] else []).

(** [AddressBook.find_record] *)
Definition find_record (b : AddressBook) (search_term : string) : list ContactRecord :=
  flat_map (find_in_record search_term) (PyDict.values (data b)).

(** [AddressBook.find_records_by_name] *)
Definition find_records_by_name (b : AddressBook) (n : string)
    : list (Z * ContactRecord) :=
  filter (λ kv, contains (lower n) (lower (value (name kv.2))) = true) (data b).

(** The body of the loop of [upcoming_birthdays] for one record with a
    birth date: the days from [today] to the next birthday. *)
Definition days_to (today : date) (b : BirthDate) : result Z :=
  t ←! strptime (value b);
  let bday := date_of t in
  next_birthday ←! date_replace_year bday (year today);
  next_birthday ←!
    (if date_gt today next_birthday
     then date_replace_year next_birthday (year today + 1)
     else Ok next_birthday);
  Ok (days (date_sub next_birthday today)).

(** The loop of [upcoming_birthdays]: the names collected so far are lost
    when a record raises. *)
Fixpoint upcoming_loop (today : date) (window : Z) (rs : list ContactRecord)
    (upcoming : list string) : result (list string) :=
  match rs with
  | [] => Ok upcoming
  | record :: rs' =>
      match birthdate record with
      | Some b =>
          n ←! days_to today b;
          upcoming_loop today window rs'
            (if n <=? window then upcoming ++ [value (name record)] else upcoming)
      | None => upcoming_loop today window rs' upcoming
      end
  end.

(** [AddressBook.upcoming_birthdays]: the names it prints, for
    [today = datetime.now().date()]. *)
Definition upcoming_birthdays (today : date) (b : AddressBook) (window : Z)
    : result (list string) :=
  upcoming_loop today window (PyDict.values (data b)) [].

(** ** Notes and tags *)

Record Note : Type := mkNote {
  content : string;
  created_at : datetime;
  tags : list string
}.

(** [Note(content)], created at [now]. *)
Definition new_note (now : datetime) (c : string) : Note :=
  {| content := c; created_at := now; tags := [] |}.

(** [Note.add_tag] *)
Definition note_add_tag (n : Note) (tag : string) : Note :=
  {| content := content n; created_at := created_at n; tags := tags n ++ [tag] |}.

Record Notebook : Type := mkNotebook { notes : list Note }.

Definition new_notebook : Notebook := {| notes := [] |}.

(** [Notebook.add_note] *)
Definition add_note (now : datetime) (nb : Notebook) (note_content : string) : Notebook :=
  {| notes := notes nb ++ [new_note now note_content] |}.

(** [Notebook.delete_note]: the notebook after the call and the line it
    prints. *)
Definition delete_note (nb : Notebook) (note_id : Z) : Notebook * string :=
  if (1 <=? note_id) && (note_id <=? Z.of_nat (length (notes nb))) then
    ({| notes := delete (Z.to_nat (note_id - 1)) (notes nb) |},
     "Usunięto notatkę: " +:+ pretty note_id)
  else (nb, "Nie ma notatki o podanym ID.").

(** [Tag.add_tag]; the manager holds the notebook itself, so the change is
    seen there. *)
Definition add_tag (nb : Notebook) (note_index : Z) (tag : string) : Notebook * string :=
  if (1 <=? note_index) && (note_index <=? Z.of_nat (length (notes nb))) then
    ({| notes := alter (λ note, note_add_tag note tag)
                       (Z.to_nat (note_index - 1)) (notes nb) |},
     "Do notatki dodano tag: " +:+ tag)
  else (nb, "Nieprawidłowy numer notatki.").

(** [Tag.search_tag] *)
Definition search_tag (nb : Notebook) (tag : string) : list Note :=
  filter (λ note, tag ∈ tags note) (notes nb).

(** [sorted(set(...))] over strings. *)
Definition sorted_set (l : list string) : list string :=
  merge_sort String.le (remove_dups l).

(** [Tag.sort_tags]: the dictionary it returns, in insertion order. *)
Definition sort_tags (nb : Notebook) : list (string * list Note) :=
  let all_tags := mbind tags (notes nb) in
  (λ tag, (tag, filter (λ note, tag ∈ tags note) (notes nb)))
    <$> sorted_set all_tags.

(** ** Loading the two stores *)

(** What [open] followed by [pickle.load] comes to. *)
Inductive unpickled (A : Type) : Type :=
| Unpickled (a : A)
| FileNotFoundError
| OtherException (e : string).
Arguments Unpickled {A} a.
Arguments FileNotFoundError {A}.
Arguments OtherException {A} e.

(** [Notebook.load_notes]: the notebook after the call and what is printed. *)
Definition load_notes (nb : Notebook) (file : unpickled (list Note))
    : Notebook * list string :=
  match file with
  | Unpickled l => ({| notes := l |}, [])
  | FileNotFoundError =>
      ({| notes := [] |},
       ["Plik z notatkami nie istnieje. Tworzenie nowego pliku."])
  | OtherException e =>
      (nb, ["Wystąpił błąd podczas wczytywania notatek: " +:+ e])
  end.

(** [load_address_book]: the book returned and what is printed. *)
Definition load_address_book (file : unpickled (PyDict.dict ContactRecord))
    : AddressBook * list string :=
  match file with
  | Unpickled d =>
      ({| data := d; next_id := next_id new_book; free_ids := free_ids new_book |},
       [])
  | FileNotFoundError =>
      (new_book, ["Plik nie istnieje, tworzenie nowej książki adresowej."])
  | OtherException e =>
      (new_book, ["Błąd przy ładowaniu książki adresowej: " +:+ e])
  end.

(** ** Notions of the specification *)

(** "Advance a candidate id starting from [nextId] until it is neither a
    live key nor in [freeIds]": [c] is where that stops. *)
Definition advanced (b : AddressBook) (c : Z) : Prop :=
  next_id b ≤ c ∧ taken b c = false ∧ ∀ i, next_id b ≤ i < c → taken b i = true.

(** The same in the words of the book: [c] is the first id, from
    [next_id] on, that is neither the key of a record nor a free id. *)
Definition first_unused (b : AddressBook) (c : Z) : Prop :=
  next_id b ≤ c
  ∧ (c ∉ PyDict.keys (data b)) ∧ (c ∉ free_ids b)
  ∧ ∀ i, next_id b ≤ i < c → i ∈ PyDict.keys (data b) ∨ i ∈ free_ids b.

(** "The smallest free id". *)
Definition smallest (k : Z) (s : gset Z) : Prop :=
  k ∈ s ∧ ∀ j, j ∈ s → k ≤ j.

(** The books the program can hold: a new one, one read from the store,
    and what [add_record] and the two deletions make of them. *)
Inductive reachable : AddressBook → Prop :=
| reach_new : reachable new_book
| reach_load file : reachable (load_address_book file).1
| reach_add b r : reachable b → reachable (add_record b r).1
| reach_delete b k : reachable b → reachable (delete_record_by_id b k).

(** A free id is not the key of a record. *)
Definition separate (b : AddressBook) : Prop :=
  ∀ k, k ∈ PyDict.keys (data b) → k ∉ free_ids b.

(** How [delete_note] refuses a position: the notebook is left as it is
    and the line says that there is no such note. *)
Definition out_of_range (nb : Notebook) (res : Notebook * string) : Prop :=
  res = (nb, "Nie ma notatki o podanym ID.").

(** ** Sample data *)

Definition noon : datetime := mkDatetime (mkDate 2024 6 15) 12 0 0 0.

(** A contact born on the given day. *)
Definition born (n v : string) : ContactRecord :=
  new_record (mkField n) (Some (mkField v)).

(** A contact whose phone number and email address both hold a 1. *)
Definition ann : ContactRecord :=
  {| id := None; name := mkField "Ann";
     phone_numbers := [mkField "123456789"];
     email_addresses := [mkField "ann1@mail.com"];
     birthdate := None; address := None |}.

Definition shopping : Notebook :=
  {| notes := [mkNote "milk" noon []] |}.

Definition errands : Notebook :=
  {| notes := [mkNote "milk" noon []; mkNote "bread" noon ["shop"]] |}.

(** A stored book with the ids 1 and 3. *)
Definition stored : AddressBook :=
  (load_address_book
     (Unpickled [(1, set_id 1 (born "Ann" "2000-06-15"));
                 (3, set_id 3 (born "Bob" "1999-01-31"))])).1.

(** Two contacts, one of them born on 29 February. *)
Definition leap_day_book : AddressBook :=
  (add_record (add_record new_book (born "Ann" "2000-06-15")).1
              (born "Bob" "2000-02-29")).1.

Definition found_book : AddressBook := (add_record new_book ann).1.

(** *** Texts of digits *)

Definition is_digit (c : ascii) : bool :=
  (code "0" <=? code c) && (code c <=? code "9").

Fixpoint all_digits (t : string) : bool :=
  match t with
  | EmptyString => true
  | String c t' => is_digit c && all_digits t'
  end.

(** A text of exactly [n] digits. *)
Definition digits (n : nat) (t : string) : Prop :=
  String.length t = n ∧ all_digits t = true.

(** *** Well-formed dates *)

(** A date the [date] class can hold. *)
Definition valid_date (d : date) : Prop :=
  MINYEAR ≤ year d ≤ MAXYEAR ∧ 1 ≤ month d ≤ 12
  ∧ 1 ≤ day d ≤ days_in_month (year d) (month d).

(** A date and a time of day, as [datetime.now()] gives. *)
Definition valid_datetime (t : datetime) : Prop :=
  valid_date (date_of t)
  ∧ 0 ≤ hour t < 24 ∧ 0 ≤ minute t < 60 ∧ 0 ≤ second t < 60
  ∧ 0 ≤ microsecond t < 1000000.

(** ** Further code of the program *)

(** *** The pages of the address book

    [AddressBook.__next__] with [current] passed along: the page and the
    new [current], or [None] where the method raises [StopIteration]. *)
Definition next_page (b : AddressBook) (current : Z)
    : option (list ContactRecord * Z) :=
  if current <? Z.of_nat (length (data b)) then
    Some (take 5 (drop (Z.to_nat current) (PyDict.values (data b))), current + 5)
  else None.

(** [for records in book]: [__iter__] puts [current] at 0, then [__next__]
    is called until it raises; at most [fuel] pages are taken. *)
Fixpoint pages_from (fuel : nat) (b : AddressBook) (current : Z)
    : list (list ContactRecord) :=
  match fuel with
  | O => []
  | S fuel' =>
      match next_page b current with
      | Some (records, current') => records :: pages_from fuel' b current'
      | None => []
      end
  end.

Definition pages (b : AddressBook) : list (list ContactRecord) :=
  pages_from (S (length (data b))) b 0.

(** *** Books built in one run *)

(** The books a run that found no stored book can hold. *)
Inductive built : AddressBook → Prop :=
| built_new : built new_book
| built_add b r : built b → built (add_record b r).1
| built_delete b k : built b → built (delete_record_by_id b k).

(** Two contacts added to a new book, the first then deleted. *)
Definition recycled : AddressBook :=
  delete_record_by_id
    (add_record (add_record new_book (born "Ann" "2000-06-15")).1
                (born "Bob" "1999-01-31")).1 1.

Definition two_contacts : AddressBook :=
  (add_record (add_record new_book (born "Ann" "2000-06-15")).1
              (born "Bob" "1999-01-31")).1.

(** What holds of a book built in one run: the ids below [next_id] are
    the keys and the free ids, no id is both, no key stands twice, and a
    contact carries the id it is filed under. *)
Definition numbered (b : AddressBook) : Prop :=
  1 ≤ next_id b
  ∧ (∀ i, 1 ≤ i < next_id b ↔ i ∈ PyDict.keys (data b) ∨ i ∈ free_ids b)
  ∧ separate b
  ∧ NoDup (PyDict.keys (data b))
  ∧ ∀ k r, (k, r) ∈ data b → id r = Some k.

(** How [Tag.add_tag] refuses a position. *)
Definition no_such_note (nb : Notebook) (res : Notebook * string) : Prop :=
  res = (nb, "Nieprawidłowy numer notatki.").

(** A birth date that reads as a date other than 29 February. *)
Definition plain_birthdate (b : BirthDate) : Prop :=
  ∃ t, strptime (value b) = Ok t
       ∧ ¬ (month (date_of t) = 2 ∧ day (date_of t) = 29).

(** ** Calls that may raise *)

(** What a call comes to for its caller: the value returned, or the
    exception raised. *)
Inductive outcome (A : Type) : Type :=
| Returns (a : A)
| Raises (exception : string).
Arguments Returns {A} a.
Arguments Raises {A} exception.

(** [del l[i]]: the index counts from the front, or from the end when it
    is negative; outside the list Python raises [IndexError]. *)
Definition py_del {A : Type} (l : list A) (i : Z) : outcome (list A) :=
  let len := Z.of_nat (length l) in
  if (0 <=? i) && (i <? len) then Returns (delete (Z.to_nat i) l)
  else if (- len <=? i) && (i <? 0) then Returns (delete (Z.to_nat (len + i)) l)
  else Raises "IndexError".

(** [Notebook.delete_note] as a call, with the exception its [del] could
    raise: the notebook after the call and the line printed, or the
    exception. *)
Definition delete_note_call (nb : Notebook) (note_id : Z) : outcome (Notebook * string) :=
  if (1 <=? note_id) && (note_id <=? Z.of_nat (length (notes nb))) then
    match py_del (notes nb) (note_id - 1) with
    | Returns l => Returns ({| notes := l |}, "Usunięto notatkę: " +:+ pretty note_id)
    | Raises e => Raises e
    end
  else Returns (nb, "Nie ma notatki o podanym ID.").

(** "Fails with [OutOfRangeError]", as the specification has it: the call
    raises. *)
Definition fails {A : Type} (o : outcome A) : Prop := ∃ e, o = Raises e.

(** ** Search, whatever the lower-casing *)

(** The loop body of [find_record] with [str_lower] standing for
    [str.lower]: the table of the letters and their lower case belongs to
    Python, so it is left open here; [find_in_record] is the case where
    only the letters A to Z are lowered. *)
Definition find_in_record_with (str_lower : string → string)
    (search_term : string) (record : ContactRecord) : list ContactRecord :=
  if contains (str_lower search_term) (str_lower (value (name record))) then [record]
  else
    (if existsb (λ p, contains search_term (value p)) (phone_numbers record)
     then [record] else [])
    ++
    (if existsb (λ e, contains search_term (value e)) (email_addresses record)
     then [record] else []).

(** [AddressBook.find_record] with that lower-casing. *)
Definition find_record_with (str_lower : string → string)
    (b : AddressBook) (search_term : string) : list ContactRecord :=
  flat_map (find_in_record_with str_lower search_term) (PyDict.values (data b)).

(** ** Text in code points, and the digits of Unicode

    The two validators that rest on [\d] are given again on the text as
    Python holds it, a sequence of code points: [\d] takes every decimal
    digit of Unicode and [int] reads them all.  Which characters these are
    is a table of Python's; it comes in as [digit_table], by what the
    validators need of it. *)

Definition text : Type := list Z.

(** The text of a string written in ASCII. *)
Definition text_of (s : string) : text := code <$> String.list_ascii_of_string s.

(** The decimal digits (category Nd) and their values.  The values are 0
    to 9, and below 128 the digits are the characters 0 to 9. *)
Record digit_table : Type := mkDigits {
  decimal : Z → option Z;
  decimal_value : ∀ c v, decimal c = Some v → 0 ≤ v ≤ 9;
  decimal_ascii : ∀ c, 0 ≤ c < 128 →
    decimal c = if (48 <=? c) && (c <=? 57) then Some (c - 48) else None
}.

(** A table with the digits of three scripts among those of Unicode: 0 to
    9, the Arabic-Indic digits (U+0660 to U+0669) and the fullwidth digits
    (U+FF10 to U+FF19). *)
Definition sample_decimal (c : Z) : option Z :=
  if (48 <=? c) && (c <=? 57) then Some (c - 48)
  else if (1632 <=? c) && (c <=? 1641) then Some (c - 1632)
  else if (65296 <=? c) && (c <=? 65305) then Some (c - 65296)
  else None.

Program Definition sample_digits : digit_table :=
  {| decimal := sample_decimal |}.
Next Obligation.
  intros c v. unfold sample_decimal.
  repeat match goal with
         | |- context [if ?b then _ else _] => destruct b eqn:?
         end; intros [= <-];
  repeat match goal with
         | H : _ && _ = true |- _ => apply andb_true_iff in H as [?%Z.leb_le ?%Z.leb_le]
         end; lia.
Qed.
Next Obligation.
  intros c Hc. unfold sample_decimal.
  destruct ((48 <=? c) && (c <=? 57)); [done|].
  replace ((1632 <=? c) && (c <=? 1641)) with false
    by (symmetry; apply andb_false_iff; left; apply Z.leb_gt; lia).
  replace ((65296 <=? c) && (c <=? 65305)) with false
    by (symmetry; apply andb_false_iff; left; apply Z.leb_gt; lia).
  done.
Qed.

Module Unicode.

Inductive pattern : Type :=
| PLit (c : Z)
| PCls (lo hi : Z)
| PDigit
| PCat (p1 p2 : pattern)
| PAlt (p1 p2 : pattern)
| PGrp (g : string) (p : pattern).

(** What was read between [s] and its suffix [s']. *)
Definition consumed (s s' : text) : text :=
  take (length s - length s') s.

(** Backtracking match at the start of [s], as [rmatch]; [PDigit] is
    [\d]. *)
Fixpoint pmatch {A : Type} (T : digit_table) (p : pattern) (s : text)
    (groups : gmap string text)
    (k : text → gmap string text → option A) : option A :=
  match p with
  | PLit c =>
      match s with
      | x :: s' => if x =? c then k s' groups else None
      | [] => None
      end
  | PCls lo hi =>
      match s with
      | x :: s' => if (lo <=? x) && (x <=? hi) then k s' groups else None
      | [] => None
      end
  | PDigit =>
      match s with
      | x :: s' =>
          match decimal T x with
          | Some _ => k s' groups
          | None => None
          end
      | [] => None
      end
  | PCat p1 p2 => pmatch T p1 s groups (λ s' g', pmatch T p2 s' g' k)
  | PAlt p1 p2 =>
      match pmatch T p1 s groups k with
      | Some a => Some a
      | None => pmatch T p2 s groups k
      end
  | PGrp g p =>
      pmatch T p s groups (λ s' g', k s' (<[g := consumed s s']> g'))
  end.

(** [(?P<Y>\d\d\d\d)] *)
Definition re_Y : pattern :=
  PGrp "Y" (PCat PDigit (PCat PDigit (PCat PDigit PDigit))).

(** [(?P<m>1[0-2]|0[1-9]|[1-9])] *)
Definition re_m : pattern :=
  PGrp "m" (PAlt (PCat (PLit (code "1")) (PCls (code "0") (code "2")))
           (PAlt (PCat (PLit (code "0")) (PCls (code "1") (code "9")))
                 (PCls (code "1") (code "9")))).

(** [(?P<d>3[0-1]|[1-2]\d|0[1-9]|[1-9]| [1-9])] *)
Definition re_d : pattern :=
  PGrp "d" (PAlt (PCat (PLit (code "3")) (PCls (code "0") (code "1")))
           (PAlt (PCat (PCls (code "1") (code "2")) PDigit)
           (PAlt (PCat (PLit (code "0")) (PCls (code "1") (code "9")))
           (PAlt (PCls (code "1") (code "9"))
                 (PCat (PLit (code " ")) (PCls (code "1") (code "9"))))))).

Definition format_regex : pattern :=
  PCat re_Y (PCat (PLit (code "-")) (PCat re_m (PCat (PLit (code "-")) re_d))).

(** [int(text)] for the text of a group: decimal digits, after blanks;
    anything else raises. *)
Fixpoint int_digits (T : digit_table) (acc : Z) (t : text) : result Z :=
  match t with
  | [] => Ok acc
  | c :: t' =>
      match decimal T c with
      | Some v => int_digits T (acc * 10 + v) t'
      | None => ValueError
      end
  end.

Fixpoint py_int (T : digit_table) (t : text) : result Z :=
  match t with
  | [] => ValueError
  | c :: t' => if c =? code " " then py_int T t' else int_digits T 0 t
  end.

(** [datetime.strptime(text, "%Y-%m-%d")] *)
Definition strptime (T : digit_table) (v : text) : result datetime :=
  match pmatch T format_regex v ∅ (λ rest g, Some (rest, g)) with
  | None => ValueError
  | Some (rest, g) =>
      if bool_decide (rest = []) then
        y ←! py_int T (g !!! "Y");
        m ←! py_int T (g !!! "m");
        d ←! py_int T (g !!! "d");
        dt ←! new_date y m d;
        Ok (mkDatetime dt 0 0 0 0)
      else ValueError
  end.

(** [BirthDate.validate_birthdate] *)
Definition validate_birthdate (T : digit_table) (v : text) : bool :=
  match strptime T v with
  | Ok _ => true
  | ValueError => false
  end.

(** [\d{9}] *)
Definition re_phone : pattern :=
  PCat PDigit (PCat PDigit (PCat PDigit (PCat PDigit (PCat PDigit
  (PCat PDigit (PCat PDigit (PCat PDigit PDigit))))))).

(** [$] seen from what is left of the text: nothing, or the newline that
    ends it. *)
Definition at_end (rest : text) : bool :=
  bool_decide (rest = []) || bool_decide (rest = [10]).

(** [PhoneNumber.validate_phone]:
    [re.compile(r"^\d{9}$").match(value) is not None] *)
Definition validate_phone (T : digit_table) (v : text) : bool :=
  match pmatch T re_phone v ∅ (λ rest _, if at_end rest then Some () else None) with
  | Some _ => true
  | None => false
  end.

End Unicode.

(** *** What the specification says of such texts *)

Definition ascii_digit (c : Z) : Prop := 48 ≤ c ≤ 57.

Definition decimal_digit (T : digit_table) (c : Z) : Prop := is_Some (decimal T c).

(** The number written with the digits 0 to 9. *)
Definition number (t : text) : Z := foldl (λ acc c, acc * 10 + (c - 48)) 0 t.

(** "Strict YYYY-MM-DD": a year of four digits, a month and a day of two
    digits each, the digits being 0 to 9, that name a date of the
    calendar. *)
Definition strict_date (s : text) : Prop :=
  ∃ ys ms ds,
    s = ys ++ 45 :: ms ++ 45 :: ds
    ∧ length ys = 4%nat ∧ length ms = 2%nat ∧ length ds = 2%nat
    ∧ Forall ascii_digit ys ∧ Forall ascii_digit ms ∧ Forall ascii_digit ds
    ∧ 1 ≤ number ys
    ∧ 1 ≤ number ms ≤ 12
    ∧ 1 ≤ number ds ≤ days_in_month (number ys) (number ms).

(** The month as [strptime] takes it: one or two of the digits 0 to 9. *)
Definition month_text (ms : text) : Prop :=
  (length ms = 1%nat ∨ length ms = 2%nat) ∧ Forall ascii_digit ms.

(** The day as [strptime] takes it: one of the digits 0 to 9; or two, the
    second of which may be any decimal digit when the first is 1 or 2; or
    a blank and one of the digits 0 to 9. *)
Definition day_text (T : digit_table) (ds : text) : Prop :=
  (∃ c, ds = [c] ∧ ascii_digit c)
  ∨ (∃ c1 c2, ds = [c1; c2] ∧ ascii_digit c1
       ∧ if decide (c1 = 49 ∨ c1 = 50) then decimal_digit T c2 else ascii_digit c2)
  ∨ (∃ c, ds = [32; c] ∧ ascii_digit c).

(** A text of [n] decimal digits. *)
Definition decimal_digits (T : digit_table) (n : nat) (t : text) : Prop :=
  length t = n ∧ Forall (decimal_digit T) t.

(** The number written with decimal digits: each counts for its value. *)
Definition decimal_number (T : digit_table) (t : text) : Z :=
  foldl (λ acc c, acc * 10 + default 0 (decimal T c)) 0 t.

(** The number of a day: a blank in front does not count. *)
Definition day_number (T : digit_table) (ds : text) : Z :=
  match ds with
  | c :: t => if decide (c = 32) then decimal_number T t else decimal_number T ds
  | [] => 0
  end.

(** The texts [strptime] takes for a date: a year of four decimal digits,
    a month and a day as above, with a dash between them, whose numbers
    make a date of the calendar from the year 1 on. *)
Definition accepted_date (T : digit_table) (s : text) : Prop :=
  ∃ ys ms ds,
    s = ys ++ 45 :: ms ++ 45 :: ds
    ∧ decimal_digits T 4 ys ∧ month_text ms ∧ day_text T ds
    ∧ 1 ≤ decimal_number T ys
    ∧ 1 ≤ number ms ≤ 12
    ∧ 1 ≤ day_number T ds ≤ days_in_month (decimal_number T ys) (number ms).

(** *** Text in ASCII

    On text below 128 the table of digits plays no part, and the model on
    bytes says what the one on code points says. *)

Definition ascii_text (s : text) : Prop := Forall (λ c, 0 ≤ c < 128) s.

(** An expression on bytes and one on code points that take the same
    texts as long as these are in ASCII. *)
Inductive same_on_ascii : regex → Unicode.pattern → Prop :=
| same_lit c : same_on_ascii (Lit c) (Unicode.PLit (code c))
| same_cls lo hi : same_on_ascii (Cls lo hi) (Unicode.PCls (code lo) (code hi))
| same_digit : same_on_ascii re_digit Unicode.PDigit
| same_cat r1 r2 p1 p2 :
    same_on_ascii r1 p1 → same_on_ascii r2 p2 →
    same_on_ascii (Cat r1 r2) (Unicode.PCat p1 p2)
| same_alt r1 r2 p1 p2 :
    same_on_ascii r1 p1 → same_on_ascii r2 p2 →
    same_on_ascii (Alt r1 r2) (Unicode.PAlt p1 p2)
| same_grp g r p :
    same_on_ascii r p → same_on_ascii (Grp g r) (Unicode.PGrp g p).

(** * Properties *)

(** ** Dictionaries *)

Section dict_facts.
Context {V : Type}.
Implicit Types (d : PyDict.dict V) (k x : Z) (v : V).

Lemma keys_set k v d x :
  x ∈ PyDict.keys (PyDict.set k v d) ↔ x = k ∨ x ∈ PyDict.keys d.
Proof.
  unfold PyDict.keys. induction d as [|[k' v'] d IH]; simpl.
  - set_solver.
  - case_decide; subst; simpl; rewrite ?elem_of_cons; [tauto|].
    rewrite IH. tauto.
Qed.

Lemma keys_del k d x :
  x ∈ PyDict.keys (PyDict.del k d) ↔ x ≠ k ∧ x ∈ PyDict.keys d.
Proof.
  unfold PyDict.keys, PyDict.del. rewrite !list_elem_of_fmap. split.
  - intros [[k' v'] [-> [Hne Hin]%list_elem_of_filter]]. simpl in *.
    split; [done|]. by exists (k', v').
  - intros [Hne [[k' v'] [-> Hin]]]. exists (k', v'). split; [done|].
    by apply list_elem_of_filter.
Qed.

Lemma mem_true k d : PyDict.mem k d = true ↔ k ∈ PyDict.keys d.
Proof. unfold PyDict.mem. by rewrite bool_decide_eq_true. Qed.
End dict_facts.

(** ** Allocation of identifiers *)

Lemma taken_true b n :
  taken b n = true ↔ n ∈ PyDict.keys (data b) ∨ n ∈ free_ids b.
Proof.
  unfold taken. by rewrite orb_true_iff, mem_true, bool_decide_eq_true.
Qed.

Lemma foldr_max_ge (a : Z) (l : list Z) :
  a ≤ foldr Z.max a l ∧ ∀ x, x ∈ l → x ≤ foldr Z.max a l.
Proof.
  induction l as [|y l [IHa IHl]]; simpl.
  - split; [lia|]. intros x Hx. by apply elem_of_nil in Hx.
  - split; [lia|]. intros x [->|Hx]%elem_of_cons; [lia|].
    specialize (IHl x Hx). lia.
Qed.

Lemma foldr_min_least (a : Z) (l : list Z) :
  foldr Z.min a l ∈ a :: l ∧ ∀ x, x ∈ a :: l → foldr Z.min a l ≤ x.
Proof.
  induction l as [|y l [IHin IHle]]; simpl.
  - split; [apply elem_of_cons; by left|].
    intros x Hx. apply list_elem_of_singleton in Hx. lia.
  - split.
    + destruct (Z.min_spec y (foldr Z.min a l)) as [[_ ->]|[_ ->]];
        rewrite !elem_of_cons in *; tauto.
    + intros x Hx. rewrite !elem_of_cons in Hx.
      assert (x = y ∨ x ∈ a :: l) as [->|Hx']
        by (rewrite elem_of_cons; tauto); [lia|].
      specialize (IHle x Hx'). lia.
Qed.

Lemma taken_below_top b i : taken b i = true → i ≤ top_id b.
Proof.
  rewrite taken_true. intros Hi. unfold top_id.
  apply foldr_max_ge. rewrite elem_of_app, elem_of_elements. tauto.
Qed.

(** The loop with enough rounds stops at the first identifier that is not
    taken. *)
Lemma advance_stops b fuel n :
  (∀ i, n ≤ i → taken b i = true → i < n + Z.of_nat fuel) →
  n ≤ advance fuel b n ∧ taken b (advance fuel b n) = false ∧
  ∀ i, n ≤ i < advance fuel b n → taken b i = true.
Proof.
  revert n. induction fuel as [|fuel IH]; intros n Hbound; simpl.
  - split; [lia|]. split; [|lia].
    destruct (taken b n) eqn:Hn; [|done].
    specialize (Hbound n ltac:(lia) Hn). lia.
  - destruct (taken b n) eqn:Hn.
    + destruct (IH (n + 1)) as (Hle & Hfree & Hall).
      { intros i Hi Ht. specialize (Hbound i ltac:(lia) Ht). lia. }
      split; [lia|]. split; [done|].
      intros i Hi. destruct (decide (i = n)) as [->|]; [done|].
      apply Hall. lia.
    + split; [lia|]. split; [done|lia].
Qed.

Lemma advance_advanced b : advanced b (advance (rounds b) b (next_id b)).
Proof.
  apply advance_stops. intros i Hi Ht. apply taken_below_top in Ht.
  unfold rounds. pose proof (proj1 (foldr_max_ge (next_id b)
    (PyDict.keys (data b) ++ elements (free_ids b)))) as Htop.
  fold (top_id b) in Htop. lia.
Qed.

Lemma py_min_smallest (s : gset Z) : s ≠ ∅ → smallest (py_min s) s.
Proof.
  intros Hne. unfold py_min, smallest.
  destruct (elements s) as [|x l] eqn:Hel.
  - by apply elements_empty_inv, leibniz_equiv in Hel.
  - destruct (foldr_min_least x l) as [Hin Hle].
    rewrite <- Hel in Hin, Hle. split.
    + by apply elem_of_elements.
    + intros j Hj. apply Hle. by apply elem_of_elements.
Qed.

(** The two ways out of [add_record]. *)
Lemma add_record_cases (b : AddressBook) (r : ContactRecord) :
  ∃ c, advanced b c ∧
    if decide (free_ids b = ∅) then
      add_record b r =
        ({| data := PyDict.set c (set_id c r) (data b);
            next_id := c + 1;
            free_ids := free_ids b |}, c)
    else
      ∃ k, smallest k (free_ids b) ∧
        add_record b r =
          ({| data := PyDict.set k (set_id k r) (data b);
              next_id := c;
              free_ids := free_ids b ∖ {[k]} |}, k).
Proof.
  exists (advance (rounds b) b (next_id b)). split; [apply advance_advanced|].
  unfold add_record. case_decide as Hfree.
  - rewrite bool_decide_eq_false_2 by (intros ?; done). done.
  - rewrite bool_decide_eq_true_2 by done.
    exists (py_min (free_ids b)). split; [by apply py_min_smallest|done].
Qed.

Lemma advanced_first_unused b c : advanced b c ↔ first_unused b c.
Proof.
  unfold advanced, first_unused.
  assert (taken b c = false ↔ (c ∉ PyDict.keys (data b)) ∧ (c ∉ free_ids b)) as ->.
  { rewrite <- not_true_iff_false, taken_true. tauto. }
  assert ((∀ i, next_id b ≤ i < c → taken b i = true)
          ↔ (∀ i, next_id b ≤ i < c → i ∈ PyDict.keys (data b) ∨ i ∈ free_ids b)) as ->.
  { split; intros H i Hi; apply taken_true; by apply H. }
  tauto.
Qed.

(** C1. Whatever the state of the book, [add_record] first moves the
    candidate from [next_id] past the ids that are keys of records or free
    ids, to the first id that is neither; then, when there are free ids,
    it gives the record the smallest of them, takes it out of the free ids
    and leaves [next_id] on the candidate; when there are none, it gives
    the candidate and sets [next_id] one past it.  After two additions
    (ids 1 and 2) and the deletion of 1, the next addition gives id 1.  On
    the stored book with the keys 1 and 3 the candidate moves from 1 to 2,
    and then from 3 to 4; after the deletion of 3 there, the free id 3 is
    given while [next_id] still moves to 2. *)
Theorem add_record_allocates (b : AddressBook) (r : ContactRecord) :
  (∃ c, first_unused b c ∧
     if decide (free_ids b = ∅) then
       add_record b r =
         ({| data := PyDict.set c (set_id c r) (data b);
             next_id := c + 1;
             free_ids := free_ids b |}, c)
     else
       ∃ k, smallest k (free_ids b) ∧
         add_record b r =
           ({| data := PyDict.set k (set_id k r) (data b);
               next_id := c;
               free_ids := free_ids b ∖ {[k]} |}, k))
  ∧ (let b1 := (add_record new_book r).1 in
     let b2 := (add_record b1 r).1 in
     let b3 := delete_record_by_id b2 1 in
     (add_record new_book r).2 = 1 ∧ (add_record b1 r).2 = 2 ∧
     free_ids b3 = {[1]} ∧ (add_record b3 r).2 = 1)
  ∧ (let s1 := (add_record stored r).1 in
     next_id stored = 1 ∧ PyDict.keys (data stored) = [1; 3] ∧
     (add_record stored r).2 = 2 ∧ next_id s1 = 3 ∧
     (add_record s1 r).2 = 4 ∧ next_id (add_record s1 r).1 = 5)
  ∧ (let d := delete_record_by_id stored 3 in
     PyDict.keys (data d) = [1] ∧ free_ids d = {[3]} ∧ next_id d = 1 ∧
     (add_record d r).2 = 3 ∧ next_id (add_record d r).1 = 2 ∧
     free_ids (add_record d r).1 = ∅).
Proof.
  split; [|split; [by vm_compute|split; by vm_compute]].
  destruct (add_record_cases b r) as (c & Hadv%advanced_first_unused & Hcase).
  by exists c.
Qed.

(** *** No identifier is given twice *)

Lemma load_address_book_free file : free_ids (load_address_book file).1 = ∅.
Proof. by destruct file. Qed.

Lemma add_record_separate b r : separate b → separate (add_record b r).1.
Proof.
  intros Hsep. destruct (add_record_cases b r) as (c & Hadv & Hcase).
  case_decide as Hfree.
  - rewrite Hcase. intros k _. simpl. rewrite Hfree. apply not_elem_of_empty.
  - destruct Hcase as (m & [Hin Hmin] & ->). intros k. simpl.
    rewrite keys_set, elem_of_difference, elem_of_singleton.
    intros [->|Hk] [Hf Hne]; [done|]. by apply (Hsep k).
Qed.

Lemma delete_record_separate b k : separate b → separate (delete_record_by_id b k).
Proof.
  intros Hsep. unfold delete_record_by_id.
  destruct (PyDict.mem k (data b)); [|done].
  intros x. simpl. rewrite keys_del, elem_of_union, elem_of_singleton.
  intros [Hne Hx] [Hf|Heq]; [|done]. by apply (Hsep x).
Qed.

Lemma reachable_separate b : reachable b → separate b.
Proof.
  induction 1 as [|file|b r _ IH|b k _ IH].
  - intros k Hk. by apply elem_of_nil in Hk.
  - intros k _. rewrite load_address_book_free. apply not_elem_of_empty.
  - by apply add_record_separate.
  - by apply delete_record_separate.
Qed.

(** C10. On every book the program can hold, [add_record] gives an id
    that is not the key of a record already there; this covers a book read
    from the store, where only the records come back and [next_id] and
    [free_ids] start again at 1 and empty. *)
Theorem add_record_fresh (b : AddressBook) (r : ContactRecord) :
  reachable b → (add_record b r).2 ∉ PyDict.keys (data b).
Proof.
  intros Hsep%reachable_separate.
  destruct (add_record_cases b r) as (c & (_ & Hfree & _) & Hcase).
  case_decide.
  - rewrite Hcase. simpl. intros Hin.
    assert (taken b c = true) as Ht by (apply taken_true; by left).
    congruence.
  - destruct Hcase as (m & [Hin _] & ->). simpl. intros Hk.
    by apply (Hsep m).
Qed.

(** A stored book with ids 1 and 3: the next id given is 2. *)
Lemma add_record_fresh_witness :
  reachable stored ∧ (add_record stored ann).2 ∉ PyDict.keys (data stored).
Proof.
  split; [apply reach_load|].
  apply (add_record_fresh stored ann). apply reach_load.
Defined.

(** ** Search *)

(** What one record contributes to [find_record]: once for a match on the
    name; otherwise once for the phone numbers and once more for the email
    addresses. *)
Lemma find_in_record_count (term : string) (r : ContactRecord) :
  let by_name := contains (lower term) (lower (value (name r))) in
  let by_phone := existsb (λ p, contains term (value p)) (phone_numbers r) in
  let by_email := existsb (λ e, contains term (value e)) (email_addresses r) in
  find_in_record term r =
    if by_name then [r]
    else replicate ((if by_phone then 1 else 0) + (if by_email then 1 else 0)) r.
Proof.
  unfold find_in_record. simpl.
  destruct (contains (lower term) _); [done|].
  generalize (existsb (λ p, contains term (value p)) (phone_numbers r)).
  generalize (existsb (λ e, contains term (value e)) (email_addresses r)).
  by intros [] [].
Qed.

(** C2, on the code: a contact whose phone number and email address both
    hold the term, and whose name does not, is returned twice. *)
Theorem find_record_twice :
  find_record found_book "1" = [set_id 1 ann; set_id 1 ann]
  ∧ PyDict.values (data found_book) = [set_id 1 ann].
Proof. split; reflexivity. Qed.

(** ** Dates *)

(** The match of [format_regex] is followed group by group: each lemma
    says which texts a group takes and what is handed to the rest. *)

#[local] Arguments String.append !_ _ / : simpl nomatch.

(** The codes of the characters named in the expressions. *)
Ltac codes :=
  change (code "0") with 48 in *; change (code "1") with 49 in *;
  change (code "2") with 50 in *; change (code "3") with 51 in *;
  change (code "9") with 57 in *; change (code " ") with 32 in *;
  change (code "-") with 45 in *.

(** Tests on integers, as propositions. *)
Ltac boolZ := repeat match goal with
 | H : _ && _ = true |- _ => apply andb_true_iff in H as [? ?]
 | H : _ && _ = false |- _ => apply andb_false_iff in H
 | H : (_ <=? _) = true |- _ => apply Z.leb_le in H
 | H : (_ <=? _) = false |- _ => apply Z.leb_gt in H
 | H : (_ =? _) = true |- _ => apply Z.eqb_eq in H
 | H : (_ =? _) = false |- _ => apply Z.eqb_neq in H
 end.

(** Case analysis on the tests met on the way. *)
Ltac tests := repeat (match goal with
  | |- context [if ?b then _ else _] => destruct b eqn:?
  | |- context [match ?e with Some _ => _ | None => _ end] => destruct e eqn:?
  end; try discriminate).

(** A character is known by its code. *)
Lemma code_inj c1 c2 : code c1 = code c2 → c1 = c2.
Proof.
  unfold code. intros H. apply N2Z.inj in H.
  rewrite <- (ascii_N_embedding c1), <- (ascii_N_embedding c2). by rewrite H.
Qed.

Lemma length_append p s :
  String.length (p +:+ s) = (String.length p + String.length s)%nat.
Proof. induction p as [|c p IH]; simpl; congruence. Qed.

(** The text of a group is what stands in front of the rest. *)
Lemma consumed_app p s : consumed (p +:+ s) s = p.
Proof.
  unfold consumed.
  replace (String.length (p +:+ s) - String.length s)%nat with (String.length p)
    by (rewrite length_append; lia).
  induction p as [|c p IH]; simpl.
  - by destruct s.
  - by rewrite IH.
Qed.

(** The year: four digits. *)
Lemma rmatch_Y {A} s g (k : string → gmap string string → option A) a :
  rmatch re_Y s g k = Some a ↔
  ∃ ys s', s = ys +:+ s' ∧ digits 4 ys ∧ k s' (<["Y" := ys]> g) = Some a.
Proof.
  split.
  - destruct s as [|c1 [|c2 [|c3 [|c4 s]]]]; cbn [rmatch re_Y re_digit];
      try discriminate.
    all: tests. intros H. exists (String c1 (String c2 (String c3 (String c4 "")))), s.
    split; [done|]. split.
    + split; [done|]. simpl. unfold is_digit. by rewrite Heqb, Heqb0, Heqb1, Heqb2.
    + change (String c1 (String c2 (String c3 (String c4 s)))) with
        (String c1 (String c2 (String c3 (String c4 "")))  +:+ s) in H.
      by rewrite consumed_app in H.
  - intros (ys & s' & -> & [Hlen Hd] & Hk).
    destruct ys as [|c1 [|c2 [|c3 [|c4 [|]]]]]; try discriminate.
    simpl in Hd. unfold is_digit in Hd.
    repeat (apply andb_prop in Hd as [? Hd]).
    cbn [rmatch re_Y re_digit String.append].
    repeat match goal with H : _ = true |- _ => rewrite H; clear H end.
    change (String c1 (String c2 (String c3 (String c4 s')))) with
        (String c1 (String c2 (String c3 (String c4 "")))  +:+ s').
    by rewrite consumed_app.
Qed.

Lemma rmatch_lit {A} c s g (k : string → gmap string string → option A) a :
  rmatch (Lit c) s g k = Some a ↔ ∃ s', s = String c s' ∧ k s' g = Some a.
Proof.
  split.
  - destruct s as [|x s]; simpl; [discriminate|].
    destruct (Z.eqb_spec (code x) (code c)) as [->%code_inj|]; [|discriminate].
    intros H. by exists s.
  - intros (s' & -> & H). simpl. by rewrite Z.eqb_refl.
Qed.

Lemma digits_1 t : digits 1 t ↔ ∃ c, t = String c "" ∧ 48 ≤ code c ≤ 57.
Proof.
  unfold digits. split.
  - intros [Hl Hd]. destruct t as [|c [|]]; try discriminate.
    exists c. split; [done|]. simpl in Hd. unfold is_digit in Hd. codes. boolZ. lia.
  - intros (c & -> & Hc). split; [done|]. simpl. unfold is_digit. codes.
    rewrite andb_true_r. apply andb_true_iff. split; apply Z.leb_le; lia.
Qed.

Lemma digits_2 t :
  digits 2 t ↔ ∃ c1 c2, t = String c1 (String c2 "") ∧ 48 ≤ code c1 ≤ 57 ∧ 48 ≤ code c2 ≤ 57.
Proof.
  unfold digits. split.
  - intros [Hl Hd]. destruct t as [|c1 [|c2 [|]]]; try discriminate.
    exists c1, c2. split; [done|]. simpl in Hd. unfold is_digit in Hd. codes. boolZ. lia.
  - intros (c1 & c2 & -> & Hc1 & Hc2). split; [done|]. simpl. unfold is_digit. codes.
    rewrite andb_true_r. rewrite !andb_true_iff. repeat split; apply Z.leb_le; lia.
Qed.

Lemma consumed_1 c s : consumed (String c s) s = String c "".
Proof. apply (consumed_app (String c "")). Qed.

Lemma consumed_2 c1 c2 s : consumed (String c1 (String c2 s)) s = String c1 (String c2 "").
Proof. apply (consumed_app (String c1 (String c2 ""))). Qed.

(** A character with the code of the dash or of the blank is that one. *)
Ltac dashes := repeat match goal with
  | Hc : code ?x = 45 |- _ => apply (code_inj x "-") in Hc; subst x
  | Hc : code ?x = 32 |- _ => apply (code_inj x " ") in Hc; subst x
  end.

(** Bounds on the number read from a text of one or two characters. *)
Ltac arith := cbn [py_int int_digits]; codes; tests; boolZ; lia.

(** The month, followed by the dash: one or two digits that read 1 to 12. *)
Lemma rmatch_m {A} s g (k : string → gmap string string → option A) a :
  rmatch re_m s g (λ s1 g1, rmatch (Lit "-") s1 g1 k) = Some a ↔
  ∃ ms s', s = ms +:+ String "-" s'
    ∧ (digits 1 ms ∨ digits 2 ms) ∧ 1 ≤ py_int ms ≤ 12
    ∧ k s' (<["m" := ms]> g) = Some a.
Proof.
  split.
  - destruct s as [|c1 [|c2 [|c3 s]]]; cbn [rmatch re_m];
      rewrite ?consumed_1, ?consumed_2; codes; tests.
    all: intros H; try discriminate H; boolZ.
    all: dashes.
    all: codes; try (exfalso; lia).
    all: first
      [ exists (String c1 ""); eexists; split; [reflexivity|];
        split; [left; apply digits_1; eexists; split; [reflexivity|lia]|];
        split; [arith|congruence]
      | exists (String c1 (String c2 "")); eexists; split; [reflexivity|];
        split; [right; apply digits_2; do 2 eexists; split; [reflexivity|lia]|];
        split; [arith|congruence] ].
  - intros (ms & s' & -> & [(c & -> & Hc)%digits_1|(c1 & c2 & -> & Hc1 & Hc2)%digits_2]
            & Hm & Hk);
      revert Hm; cbn [py_int int_digits]; codes; tests; intros Hm; boolZ; try lia.
    all: cbn [rmatch re_m String.append]; rewrite ?consumed_1, ?consumed_2;
      codes; tests; boolZ; first [lia|congruence].
Qed.

(** The day, when nothing is left over: one or two digits, or a blank and
    a digit, that read 1 to 31. *)
Lemma rmatch_d s g g2 :
  rmatch re_d s g (λ rest g', Some (rest, g')) = Some ("", g2) ↔
  (digits 1 s ∨ digits 2 s ∨ ∃ t, s = " " +:+ t ∧ digits 1 t)
  ∧ 1 ≤ py_int s ≤ 31 ∧ g2 = <["d" := s]> g.
Proof.
  split.
  - destruct s as [|c1 [|c2 [|c3 s]]]; cbn [rmatch re_d re_digit];
      rewrite ?consumed_1, ?consumed_2; codes; tests.
    all: intros H; try discriminate H; boolZ; dashes.
    all: codes; try (exfalso; lia).
    all: injection H as <-.
    all: first
      [ split; [left; apply digits_1; eexists; split; [reflexivity|lia]|];
        split; [arith|done]
      | split; [right; left; apply digits_2; do 2 eexists; split; [reflexivity|lia]|];
        split; [arith|done]
      | split; [right; right; eexists; split; [reflexivity|];
                apply digits_1; eexists; split; [reflexivity|lia]|];
        split; [arith|done] ].
  - intros ([(c & -> & Hc)%digits_1
            |[(c1 & c2 & -> & Hc1 & Hc2)%digits_2
             |(t & -> & (c & -> & Hc)%digits_1)]] & Hd & ->);
      revert Hd; cbn [py_int int_digits String.append]; codes; tests; intros Hd;
      boolZ; try lia.
    all: cbn [rmatch re_d re_digit]; rewrite ?consumed_1, ?consumed_2;
      codes; tests; boolZ; first [lia|congruence].
Qed.

Lemma rmatch_cat {A} r1 r2 s g (k : string → gmap string string → option A) :
  rmatch (Cat r1 r2) s g k = rmatch r1 s g (λ s' g', rmatch r2 s' g' k).
Proof. reflexivity. Qed.

Lemma days_in_month_le y m : days_in_month y m ≤ 31.
Proof.
  unfold days_in_month. destruct (_ && _); [lia|].
  unfold DAYS_IN_MONTH.
  generalize (Z.to_nat (m - 1)). intros n.
  do 12 (destruct n as [|n]; [simpl; lia|]). simpl. destruct n; lia.
Qed.

(** *** Dates in code points

    The same walk through [Unicode.format_regex], for any table of the
    decimal digits. *)

Section unicode_facts.
Context (T : digit_table).
Implicit Types (s : text) (g : gmap string text) (c : Z).

Lemma consumed_app_text (p s : text) : Unicode.consumed (p ++ s) s = p.
Proof.
  unfold Unicode.consumed. rewrite length_app.
  replace (length p + length s - length s)%nat with (length p) by lia.
  by rewrite take_app_length.
Qed.

Lemma consumed_text_1 c s : Unicode.consumed (c :: s) s = [c].
Proof. apply (consumed_app_text [c]). Qed.

Lemma consumed_text_2 c1 c2 s : Unicode.consumed (c1 :: c2 :: s) s = [c1; c2].
Proof. apply (consumed_app_text [c1; c2]). Qed.

Lemma consumed_text_4 c1 c2 c3 c4 s :
  Unicode.consumed (c1 :: c2 :: c3 :: c4 :: s) s = [c1; c2; c3; c4].
Proof. apply (consumed_app_text [c1; c2; c3; c4]). Qed.

Lemma pmatch_cat {A} p1 p2 s g (k : text → gmap string text → option A) :
  Unicode.pmatch T (Unicode.PCat p1 p2) s g k
  = Unicode.pmatch T p1 s g (λ s' g', Unicode.pmatch T p2 s' g' k).
Proof. reflexivity. Qed.

Lemma pmatch_digit {A} s g (k : text → gmap string text → option A) a :
  Unicode.pmatch T Unicode.PDigit s g k = Some a ↔
  ∃ c s', s = c :: s' ∧ decimal_digit T c ∧ k s' g = Some a.
Proof.
  cbn [Unicode.pmatch]. unfold decimal_digit. split.
  - destruct s as [|c s]; [discriminate|].
    destruct (decimal T c) as [v|] eqn:Hc; [|discriminate].
    intros Hk. exists c, s. by rewrite Hc.
  - intros (c & s' & -> & [v Hc] & Hk). by rewrite Hc.
Qed.

Lemma pmatch_lit {A} c s g (k : text → gmap string text → option A) a :
  Unicode.pmatch T (Unicode.PLit c) s g k = Some a ↔ ∃ s', s = c :: s' ∧ k s' g = Some a.
Proof.
  cbn [Unicode.pmatch]. split.
  - destruct s as [|x s]; [discriminate|].
    destruct (Z.eqb_spec x c) as [->|]; [|discriminate]. intros H. by exists s.
  - intros (s' & -> & H). by rewrite Z.eqb_refl.
Qed.

(** The year: four decimal digits. *)
Lemma pmatch_Y {A} s g (k : text → gmap string text → option A) a :
  Unicode.pmatch T Unicode.re_Y s g k = Some a ↔
  ∃ ys s', s = ys ++ s' ∧ decimal_digits T 4 ys ∧ k s' (<["Y" := ys]> g) = Some a.
Proof.
  unfold Unicode.re_Y. cbn [Unicode.pmatch]. fold (@Unicode.pmatch A).
  change (Unicode.pmatch T Unicode.PDigit s g
            (λ s1 g1, Unicode.pmatch T Unicode.PDigit s1 g1
            (λ s2 g2, Unicode.pmatch T Unicode.PDigit s2 g2
            (λ s3 g3, Unicode.pmatch T Unicode.PDigit s3 g3
            (λ s' g', k s' (<["Y" := Unicode.consumed s s']> g'))))) = Some a
          ↔ ∃ ys s', s = ys ++ s' ∧ decimal_digits T 4 ys ∧ k s' (<["Y" := ys]> g) = Some a).
  split.
  - intros H.
    do 4 (apply pmatch_digit in H as (? & ? & -> & ? & H)).
    eexists [_; _; _; _], _. split; [reflexivity|]. split.
    + split; [done|]. repeat constructor; done.
    + by rewrite consumed_text_4 in H.
  - intros (ys & s' & -> & [Hlen Hd] & Hk).
    destruct ys as [|c1 [|c2 [|c3 [|c4 [|]]]]]; try discriminate.
    apply Forall_cons in Hd as [? Hd]. apply Forall_cons in Hd as [? Hd].
    apply Forall_cons in Hd as [? Hd]. apply Forall_cons in Hd as [? Hd].
    do 4 (apply pmatch_digit; eexists _, _; split; [reflexivity|]; split; [done|]).
    by rewrite consumed_app_text.
Qed.

Ltac ascii_decimal :=
  repeat match goal with
         | |- context [decimal T ?c] => rewrite (decimal_ascii T c) by lia
         end.

Ltac known_decimal :=
  repeat match goal with
         | H : decimal T ?c = Some ?v |- context [decimal T ?c] => rewrite H
         end.

Ltac decimal_values :=
  repeat match goal with
         | H : decimal T ?c = Some ?v |- _ =>
             lazymatch goal with
             | _ : 0 ≤ v ≤ 9 |- _ => fail
             | _ => pose proof (decimal_value T c v H)
             end
         end.

Ltac reads :=
  cbn [Unicode.py_int Unicode.int_digits]; codes; known_decimal; ascii_decimal;
  decimal_values; tests; boolZ; try (exfalso; lia);
  eexists; split; [reflexivity|lia].

Ltac same_rest Hk :=
  match goal with
  | E : _ = _ |- _ => exact (eq_trans (eq_sym E) Hk)
  end.

Ltac all_ascii :=
  repeat first [apply Forall_nil_2 | apply Forall_cons_2; [unfold ascii_digit; lia|]].

(** The month, followed by the dash: one or two of the digits 0 to 9 that
    read 1 to 12. *)
Lemma pmatch_m {A} s g (k : text → gmap string text → option A) a :
  Unicode.pmatch T Unicode.re_m s g
    (λ s1 g1, Unicode.pmatch T (Unicode.PLit (code "-")) s1 g1 k) = Some a ↔
  ∃ ms s', s = ms ++ 45 :: s'
    ∧ month_text ms
    ∧ (∃ m, Unicode.py_int T ms = Ok m ∧ 1 ≤ m ≤ 12)
    ∧ k s' (<["m" := ms]> g) = Some a.
Proof.
  split.
  - destruct s as [|c1 [|c2 [|c3 s]]]; cbn [Unicode.pmatch Unicode.re_m];
      rewrite ?consumed_text_1, ?consumed_text_2; codes; tests.
    all: intros H; try discriminate H; boolZ; subst.
    all: try (exfalso; lia).
    all: try match goal with E : Some _ = Some _ |- _ => injection E as -> end.
    all: first
      [ eexists [_], _; split; [reflexivity|];
        split; [split; [by left|all_ascii]|];
        split; [reads|eassumption]
      | eexists [_; _], _; split; [reflexivity|];
        split; [split; [by right|all_ascii]|];
        split; [reads|eassumption] ].
  - intros (ms & s' & -> & [[Hlen|Hlen] Hd] & (m & Hm & Hr) & Hk).
    + destruct ms as [|c1 [|]]; try discriminate.
      apply Forall_cons in Hd as [Hc1 _]. unfold ascii_digit in Hc1.
      revert Hm. cbn [Unicode.py_int Unicode.int_digits]. codes. ascii_decimal.
      tests; intros [= <-]; boolZ; try lia.
      all: cbn [Unicode.pmatch Unicode.re_m app];
        rewrite ?consumed_text_1, ?consumed_text_2;
        codes; tests; boolZ; first [lia|exact Hk|same_rest Hk].
    + destruct ms as [|c1 [|c2 [|]]]; try discriminate.
      apply Forall_cons in Hd as [Hc1 Hd]. apply Forall_cons in Hd as [Hc2 _].
      unfold ascii_digit in Hc1, Hc2.
      revert Hm. cbn [Unicode.py_int Unicode.int_digits]. codes. ascii_decimal.
      tests; intros [= <-]; boolZ; try lia.
      all: cbn [Unicode.pmatch Unicode.re_m app];
        rewrite ?consumed_text_1, ?consumed_text_2;
        codes; tests; boolZ; first [lia|exact Hk|same_rest Hk].
Qed.

(** The day, when nothing is left over: a text of [day_text] that reads 1
    to 31. *)
Lemma pmatch_d s g g2 :
  Unicode.pmatch T Unicode.re_d s g (λ rest g', Some (rest, g')) = Some ([], g2) ↔
  day_text T s ∧ (∃ d, Unicode.py_int T s = Ok d ∧ 1 ≤ d ≤ 31) ∧ g2 = <["d" := s]> g.
Proof.
  split.
  - destruct s as [|c1 [|c2 [|c3 s]]]; cbn [Unicode.pmatch Unicode.re_d];
      rewrite ?consumed_text_1, ?consumed_text_2; codes; tests.
    all: intros H; try discriminate H; boolZ; subst.
    all: try (exfalso; lia).
    all: injection H as <-.
    all: split; [|split; [reads|done]].
    all: first
      [ left; eexists; split; [reflexivity|unfold ascii_digit; lia]
      | right; left; eexists _, _; split; [reflexivity|];
        split; [unfold ascii_digit; lia|];
        case_decide; first [by eexists|unfold ascii_digit; lia]
      | right; right; eexists; split; [reflexivity|unfold ascii_digit; lia] ].
  - intros ([(c & -> & Hc)|[(c1 & c2 & -> & Hc1 & Hc2)|(c & -> & Hc)]]
            & (d & Hd & Hr) & ->).
    + unfold ascii_digit in Hc. revert Hd.
      cbn [Unicode.py_int Unicode.int_digits]. codes. ascii_decimal.
      tests; intros [= <-]; boolZ; try lia.
      all: cbn [Unicode.pmatch Unicode.re_d]; rewrite ?consumed_text_1, ?consumed_text_2;
        codes; tests; boolZ; first [done|exfalso; lia].
    + unfold ascii_digit in Hc1. case_decide as Hc12.
      * destruct Hc2 as [v Hv]. revert Hd.
        cbn [Unicode.py_int Unicode.int_digits]. codes. known_decimal. ascii_decimal.
        tests; intros [= <-]; boolZ; try lia.
        all: cbn [Unicode.pmatch Unicode.re_d]; rewrite ?consumed_text_1, ?consumed_text_2;
          codes; known_decimal; tests; boolZ; first [done|exfalso; lia].
      * unfold ascii_digit in Hc2. revert Hd.
        cbn [Unicode.py_int Unicode.int_digits]. codes. ascii_decimal.
        tests; intros [= <-]; boolZ; try lia.
        all: cbn [Unicode.pmatch Unicode.re_d]; rewrite ?consumed_text_1, ?consumed_text_2;
          codes; tests; boolZ; first [done|exfalso; lia].
    + unfold ascii_digit in Hc. revert Hd.
      cbn [Unicode.py_int Unicode.int_digits]. codes. ascii_decimal.
      tests; intros [= <-]; boolZ; try lia.
      all: cbn [Unicode.pmatch Unicode.re_d]; rewrite ?consumed_text_1, ?consumed_text_2;
        codes; tests; boolZ; first [done|exfalso; lia].
Qed.

Lemma decimal_ascii_digit c : ascii_digit c → decimal T c = Some (c - 48).
Proof.
  unfold ascii_digit. intros Hc. rewrite decimal_ascii by lia.
  replace ((48 <=? c) && (c <=? 57)) with true; [done|].
  symmetry. apply andb_true_iff. split; apply Z.leb_le; lia.
Qed.

Lemma ascii_decimal_digit c : ascii_digit c → decimal_digit T c.
Proof. intros Hc. exists (c - 48). by apply decimal_ascii_digit. Qed.

Lemma ascii_decimal_digits t : Forall ascii_digit t → Forall (decimal_digit T) t.
Proof. intros Ht. eapply Forall_impl; [exact Ht|]. apply ascii_decimal_digit. Qed.

(** The blank is no digit. *)
Lemma blank_no_digit c : decimal_digit T c → (c =? 32) = false.
Proof.
  intros [v Hv]. apply Z.eqb_neq. intros ->.
  rewrite (decimal_ascii T 32) in Hv by lia. discriminate Hv.
Qed.

(** [int] reads a text of decimal digits as the number they write. *)
Lemma int_digits_decimal acc t :
  Forall (decimal_digit T) t →
  Unicode.int_digits T acc t
  = Ok (foldl (λ acc c, acc * 10 + default 0 (decimal T c)) acc t).
Proof.
  intros Ht. revert acc. induction Ht as [|c t [v Hv] Ht IH]; intros acc; [done|].
  cbn [Unicode.int_digits foldl]. rewrite Hv. apply IH.
Qed.

Lemma py_int_decimal c t :
  Forall (decimal_digit T) (c :: t) →
  Unicode.py_int T (c :: t) = Ok (decimal_number T (c :: t)).
Proof.
  intros Ht. cbn [Unicode.py_int]. codes.
  rewrite blank_no_digit by (by apply Forall_cons in Ht as [? _]).
  by apply int_digits_decimal.
Qed.

Lemma decimal_number_ascii t : Forall ascii_digit t → decimal_number T t = number t.
Proof.
  intros Ht. unfold decimal_number, number.
  assert (∀ acc, foldl (λ acc c, acc * 10 + default 0 (decimal T c)) acc t
                 = foldl (λ acc c, acc * 10 + (c - 48)) acc t) as Hacc; [|apply Hacc].
  induction Ht as [|c t Hc Ht IH]; intros acc; [done|].
  cbn [foldl]. rewrite decimal_ascii_digit by done. apply IH.
Qed.

Lemma py_int_year ys :
  decimal_digits T 4 ys → Unicode.py_int T ys = Ok (decimal_number T ys).
Proof.
  intros [Hl Hd]. destruct ys as [|c t]; [discriminate|]. by apply py_int_decimal.
Qed.

(** A year of four decimal digits is a number up to 9999. *)
Lemma decimal_number_year ys :
  decimal_digits T 4 ys → 0 ≤ decimal_number T ys ≤ 9999.
Proof.
  intros [Hl Hd]. destruct ys as [|c1 [|c2 [|c3 [|c4 [|]]]]]; try discriminate.
  apply Forall_cons in Hd as [[v1 Hv1] Hd]. apply Forall_cons in Hd as [[v2 Hv2] Hd].
  apply Forall_cons in Hd as [[v3 Hv3] Hd]. apply Forall_cons in Hd as [[v4 Hv4] _].
  unfold decimal_number. cbn [foldl]. rewrite Hv1, Hv2, Hv3, Hv4.
  decimal_values. simpl. lia.
Qed.

Lemma py_int_month ms : month_text ms → Unicode.py_int T ms = Ok (number ms).
Proof.
  intros [Hl Hd]. destruct ms as [|c t]; [by destruct Hl|].
  rewrite py_int_decimal by (by apply ascii_decimal_digits).
  by rewrite decimal_number_ascii.
Qed.

Lemma py_int_day ds : day_text T ds → Unicode.py_int T ds = Ok (day_number T ds).
Proof.
  intros [(c & -> & Hc)|[(c1 & c2 & -> & Hc1 & Hc2)|(c & -> & Hc)]].
  - unfold day_number. rewrite decide_False by (unfold ascii_digit in Hc; lia).
    apply py_int_decimal, Forall_singleton. by apply ascii_decimal_digit.
  - unfold day_number. rewrite decide_False by (unfold ascii_digit in Hc1; lia).
    apply py_int_decimal. apply Forall_cons_2; [by apply ascii_decimal_digit|].
    apply Forall_singleton. case_decide; [done|by apply ascii_decimal_digit].
  - unfold day_number. rewrite decide_True by done.
    change (Unicode.py_int T [32; c]) with (Unicode.py_int T [c]).
    apply py_int_decimal, Forall_singleton. by apply ascii_decimal_digit.
Qed.

(** [strptime] returns a date exactly on the texts of [accepted_date]. *)
Lemma strptime_accepted s :
  (∃ t, Unicode.strptime T s = Ok t) ↔ accepted_date T s.
Proof.
  unfold Unicode.strptime, accepted_date. split.
  - intros [t Ht].
    destruct (Unicode.pmatch T Unicode.format_regex s ∅ _) as [[rest g]|] eqn:Hm;
      [|discriminate].
    case_bool_decide as Hrest; [subst rest|discriminate].
    unfold Unicode.format_regex in Hm. rewrite pmatch_cat in Hm.
    apply pmatch_Y in Hm as (ys & s1 & -> & Hys & Hm).
    rewrite pmatch_cat in Hm. apply pmatch_lit in Hm as (s2 & -> & Hm).
    rewrite pmatch_cat in Hm.
    apply (pmatch_m _ _ (λ s g, Unicode.pmatch T Unicode.re_d s g _)) in Hm
      as (ms & ds & -> & Hms & _ & Hm).
    apply pmatch_d in Hm as (Hds & _ & ->).
    rewrite lookup_total_insert_ne, lookup_total_insert_ne, lookup_total_insert_eq in Ht by done.
    rewrite lookup_total_insert_ne, lookup_total_insert_eq in Ht by done.
    rewrite lookup_total_insert_eq in Ht.
    rewrite py_int_year, py_int_month, py_int_day in Ht by done. cbn [bind] in Ht.
    unfold new_date in Ht.
    destruct (_ && _) eqn:Hc in Ht; [|discriminate].
    unfold MINYEAR in Hc. boolZ.
    exists ys, ms, ds. split_and!; done || lia.
  - intros (ys & ms & ds & -> & Hys & Hms & Hds & Hy & Hm & Hd).
    assert (Unicode.pmatch T Unicode.format_regex (ys ++ 45 :: ms ++ 45 :: ds) ∅
              (λ rest g, Some (rest, g))
            = Some ([], <["d" := ds]> (<["m" := ms]> (<["Y" := ys]> ∅)))) as ->.
    { unfold Unicode.format_regex. rewrite pmatch_cat. apply pmatch_Y.
      eexists ys, _. split; [reflexivity|]. split; [done|].
      rewrite pmatch_cat. apply pmatch_lit. eexists. split; [reflexivity|].
      rewrite pmatch_cat.
      apply (pmatch_m _ _ (λ s g, Unicode.pmatch T Unicode.re_d s g _)).
      exists ms, ds. split; [reflexivity|]. split; [done|].
      split; [exists (number ms); split; [by apply py_int_month|done]|].
      apply pmatch_d. split; [done|]. split; [|done].
      exists (day_number T ds). split; [by apply py_int_day|].
      pose proof (days_in_month_le (decimal_number T ys) (number ms)). lia. }
    rewrite bool_decide_eq_true_2 by done.
    rewrite lookup_total_insert_ne, lookup_total_insert_ne, lookup_total_insert_eq by done.
    rewrite lookup_total_insert_ne, lookup_total_insert_eq by done.
    rewrite lookup_total_insert_eq.
    rewrite py_int_year, py_int_month, py_int_day by done. cbn [bind].
    pose proof (decimal_number_year ys Hys) as Hb.
    unfold new_date, MINYEAR, MAXYEAR.
    replace (_ && _) with true; [by eexists|].
    symmetry. rewrite !andb_true_iff. repeat split; apply Z.leb_le; lia.
Qed.

Lemma validate_birthdate_true_accepted s :
  Unicode.validate_birthdate T s = true ↔ accepted_date T s.
Proof.
  rewrite <- strptime_accepted. unfold Unicode.validate_birthdate.
  destruct (Unicode.strptime T s) as [t|].
  - split; [intros _; by exists t|done].
  - split; [discriminate|]. by intros [t Ht].
Qed.

(** A strict date is among the accepted ones. *)
Lemma strict_accepted s : strict_date s → accepted_date T s.
Proof.
  intros (ys & ms & ds & -> & Hly & Hlm & Hld & Hys & Hms & Hds & Hy & Hm & Hd).
  exists ys, ms, ds.
  destruct ds as [|d1 [|d2 [|]]]; try discriminate.
  pose proof Hds as Hds'.
  apply Forall_cons in Hds' as [Hd1 Hd2]. apply Forall_cons in Hd2 as [Hd2 _].
  assert (day_number T [d1; d2] = number [d1; d2]) as Hday.
  { unfold day_number. rewrite decide_False by (unfold ascii_digit in Hd1; lia).
    by apply decimal_number_ascii. }
  rewrite Hday, decimal_number_ascii by done.
  split_and!; try done; try lia.
  - split; [done|]. by apply ascii_decimal_digits.
  - by split; [right|].
  - right; left. exists d1, d2. split; [done|]. split; [done|].
    case_decide; [by apply ascii_decimal_digit|done].
Qed.

End unicode_facts.

(** *** The two models on ASCII text *)

Lemma text_of_cons c s : text_of (String c s) = code c :: text_of s.
Proof. reflexivity. Qed.

Lemma text_of_length s : length (text_of s) = String.length s.
Proof. induction s as [|c s IH]; [done|]. rewrite text_of_cons. simpl. by rewrite IH. Qed.

Lemma text_of_substring n s :
  text_of (String.substring 0 n s) = take n (text_of s).
Proof.
  revert n. induction s as [|c s IH]; intros [|n]; try done.
  cbn [String.substring]. rewrite !text_of_cons. cbn [take]. by rewrite IH.
Qed.

Lemma text_of_consumed s s' :
  Unicode.consumed (text_of s) (text_of s') = text_of (consumed s s').
Proof.
  unfold Unicode.consumed, consumed.
  by rewrite text_of_substring, !text_of_length.
Qed.

Lemma text_of_nil s : text_of s = [] ↔ s = "".
Proof. destruct s; [done|]. rewrite text_of_cons. split; discriminate. Qed.

Section two_models.
Context (T : digit_table).

Lemma same_on_ascii_match {A} r p :
  same_on_ascii r p →
  ∀ s g (k : string → gmap string string → option A)
    (k' : text → gmap string text → option A),
    ascii_text (text_of s) →
    (∀ s' g', ascii_text (text_of s') → k' (text_of s') (text_of <$> g') = k s' g') →
    Unicode.pmatch T p (text_of s) (text_of <$> g) k' = rmatch r s g k.
Proof.
  induction 1 as [c|lo hi| |r1 r2 p1 p2 _ IH1 _ IH2|r1 r2 p1 p2 _ IH1 _ IH2|x r p _ IH];
    intros s g k k' Hs Hk.
  - destruct s as [|a s]; [done|]. rewrite text_of_cons in *.
    apply Forall_cons in Hs as [_ Hs]. cbn [Unicode.pmatch rmatch].
    destruct (_ =? _); [by apply Hk|done].
  - destruct s as [|a s]; [done|]. rewrite text_of_cons in *.
    apply Forall_cons in Hs as [_ Hs]. cbn [Unicode.pmatch rmatch].
    destruct (_ && _); [by apply Hk|done].
  - destruct s as [|a s]; [done|]. rewrite text_of_cons in *.
    apply Forall_cons in Hs as [Ha Hs]. unfold re_digit. cbn [Unicode.pmatch rmatch].
    rewrite decimal_ascii by done. codes.
    destruct (_ && _); [by apply Hk|done].
  - cbn [Unicode.pmatch rmatch]. apply IH1; [done|].
    intros s' g' Hs'. by apply IH2.
  - cbn [Unicode.pmatch rmatch]. by rewrite (IH1 s g k k'), (IH2 s g k k').
  - cbn [Unicode.pmatch rmatch]. apply IH; [done|].
    intros s' g' Hs'. rewrite text_of_consumed, <- fmap_insert. by apply Hk.
Qed.

Lemma same_on_ascii_format : same_on_ascii format_regex Unicode.format_regex.
Proof. repeat constructor. Qed.

Lemma rmatch_ext {A} r s g (k k' : string → gmap string string → option A) :
  (∀ s' g', k s' g' = k' s' g') → rmatch r s g k = rmatch r s g k'.
Proof.
  revert s g k k'. induction r as [c|lo hi|r1 IH1 r2 IH2|r1 IH1 r2 IH2|x r IH];
    intros s g k k' Hk; cbn [rmatch].
  - destruct s; [done|]. by destruct (_ =? _).
  - destruct s; [done|]. by destruct (_ && _).
  - apply IH1. intros s' g'. by apply IH2.
  - by rewrite (IH1 s g k k'), (IH2 s g k k').
  - apply IH. intros s' g'. apply Hk.
Qed.

Lemma rmatch_fmap {A B} (f : A → B) r s g
    (k : string → gmap string string → option A) :
  rmatch r s g (λ s' g', f <$> k s' g') = f <$> rmatch r s g k.
Proof.
  revert s g k. induction r as [c|lo hi|r1 IH1 r2 IH2|r1 IH1 r2 IH2|x r IH];
    intros s g k; cbn [rmatch].
  - destruct s; [done|]. by destruct (_ =? _).
  - destruct s; [done|]. by destruct (_ && _).
  - rewrite <- IH1. apply rmatch_ext. intros s' g'. apply IH2.
  - rewrite IH1, IH2. by destruct (rmatch r1 s g k).
  - apply (IH s g (λ s' g', k s' (<[x:=consumed s s']> g'))).
Qed.

Lemma is_digit_decimal c : is_digit c = true → decimal T (code c) = Some (code c - 48).
Proof.
  unfold is_digit. codes. intros Hc. rewrite decimal_ascii by (boolZ; lia).
  by rewrite Hc.
Qed.

Lemma int_digits_text acc t :
  all_digits t = true →
  Unicode.int_digits T acc (text_of t) = Ok (int_digits acc t).
Proof.
  revert acc. induction t as [|c t IH]; intros acc; [done|].
  cbn [all_digits]. intros [Hc Ht]%andb_prop. rewrite text_of_cons.
  cbn [Unicode.int_digits int_digits]. rewrite is_digit_decimal by done. by apply IH.
Qed.

(** [int] of a text of digits, and of a blank and digits. *)
Lemma py_int_text c t :
  is_digit c = true → all_digits t = true →
  Unicode.py_int T (text_of (String c t)) = Ok (py_int (String c t)).
Proof.
  intros Hc Ht. rewrite text_of_cons. cbn [Unicode.py_int py_int].
  replace (code c =? code " ") with false.
  - rewrite <- text_of_cons. apply int_digits_text. cbn [all_digits]. by rewrite Hc, Ht.
  - symmetry. apply Z.eqb_neq. unfold is_digit in Hc. codes. boolZ. lia.
Qed.

Lemma py_int_text_blank c t :
  is_digit c = true → all_digits t = true →
  Unicode.py_int T (text_of (String " " (String c t))) = Ok (py_int (String " " (String c t))).
Proof.
  intros Hc Ht. rewrite text_of_cons.
  change (Unicode.py_int T (code " " :: text_of (String c t)))
    with (Unicode.py_int T (text_of (String c t))).
  change (py_int (String " " (String c t))) with (py_int (String c t)).
  by apply py_int_text.
Qed.

Lemma py_int_digits n t :
  digits (S n) t → Unicode.py_int T (text_of t) = Ok (py_int t).
Proof.
  intros [Hl Hd]. destruct t as [|c t]; [done|].
  cbn [all_digits] in Hd. apply andb_prop in Hd as [Hc Ht]. by apply py_int_text.
Qed.

(** On a text in ASCII the two models of [strptime] are one. *)
Lemma strptime_text s :
  ascii_text (text_of s) → Unicode.strptime T (text_of s) = strptime s.
Proof.
  intros Hs. unfold Unicode.strptime, strptime.
  pose (f := λ p : string * gmap string string,
               (text_of p.1, fmap (M:=gmap string) text_of p.2)).
  pose proof (same_on_ascii_match _ _ same_on_ascii_format s ∅
                (λ (rest : string) (g : gmap string string),
                   fmap (M:=option) f (Some (rest, g)))
                (λ rest g, Some (rest, g)) Hs (λ _ _ _, eq_refl)) as Hp.
  rewrite fmap_empty in Hp. rewrite Hp, rmatch_fmap. clear Hp.
  destruct (rmatch format_regex s ∅ (λ rest g, Some (rest, g))) as [[rest g]|] eqn:Hm;
    [|done].
  subst f. cbn [fmap option_fmap option_map fst snd].
  rewrite (bool_decide_ext _ _ (text_of_nil rest)).
  case_bool_decide as Hrest; [subst rest|done].
  unfold format_regex in Hm. rewrite rmatch_cat in Hm.
  apply rmatch_Y in Hm as (ys & s1 & -> & Hys & Hm).
  rewrite rmatch_cat in Hm. apply rmatch_lit in Hm as (s2 & -> & Hm).
  rewrite rmatch_cat in Hm.
  apply (rmatch_m _ _ (λ s g, rmatch re_d s g _)) in Hm
    as (ms & ds & -> & Hms & Hmr & Hm).
  apply rmatch_d in Hm as (Hds & Hdr & ->).
  rewrite !fmap_insert.
  rewrite lookup_total_insert_ne, lookup_total_insert_ne, lookup_total_insert_eq by done.
  rewrite lookup_total_insert_ne, lookup_total_insert_eq by done.
  rewrite lookup_total_insert_eq.
  rewrite lookup_total_insert_ne, lookup_total_insert_ne, lookup_total_insert_eq by done.
  rewrite lookup_total_insert_ne, lookup_total_insert_eq by done.
  rewrite lookup_total_insert_eq.
  rewrite (py_int_digits 3 ys) by done.
  assert (Unicode.py_int T (text_of ms) = Ok (py_int ms)) as ->.
  { destruct Hms; by eapply py_int_digits. }
  assert (Unicode.py_int T (text_of ds) = Ok (py_int ds)) as ->.
  { destruct Hds as [?|[?|(t & -> & [Hl Hd])]]; [by eapply py_int_digits..|].
    destruct t as [|c [|]]; try discriminate.
    cbn [all_digits] in Hd. apply andb_prop in Hd as [Hc _].
    by apply py_int_text_blank. }
  done.
Qed.

Lemma validate_birthdate_text s :
  ascii_text (text_of s) → Unicode.validate_birthdate T (text_of s) = validate_birthdate s.
Proof.
  intros Hs. unfold Unicode.validate_birthdate, validate_birthdate.
  by rewrite strptime_text.
Qed.

End two_models.

Lemma ascii_text_decide s : bool_decide (ascii_text s) = true → ascii_text s.
Proof. apply bool_decide_eq_true_1. Qed.

(** C9, as stated, fails: a month and a day of one digit are accepted. *)
Lemma validate_birthdate_short_month :
  Unicode.validate_birthdate sample_digits (text_of "2024-1-5") = true
  ∧ ¬ strict_date (text_of "2024-1-5").
Proof.
  split; [by vm_compute|].
  intros (ys & ms & ds & Hs & Hly & Hlm & Hld & _).
  destruct ys as [|y1 [|y2 [|y3 [|y4 [|]]]]]; try discriminate.
  destruct ms as [|m1 [|m2 [|]]]; discriminate.
Qed.

(** C9, amended.  Whatever the table of the decimal digits, and for every
    text, [validate_birthdate] accepts exactly the texts of
    [accepted_date]: a year of four decimal digits, a dash, a month of one
    or two of the digits 0 to 9, a dash and a day of one or two digits (the
    second may be any decimal digit after 1 or 2) or of a blank and one
    digit, which read as a date of the calendar from the year 1 on.  The
    zero in front of the month and of the day may be left out, and the
    year need not be in ASCII: every strict YYYY-MM-DD date is accepted,
    and so are 2024-1-5, a year in fullwidth digits and a day 15 whose 5
    is the Arabic-Indic one; month 13 and 30 February are refused. *)
Theorem validate_birthdate_accepts (T : digit_table) (s : text) :
  (Unicode.validate_birthdate T s = true ↔ accepted_date T s)
  ∧ (strict_date s → Unicode.validate_birthdate T s = true)
  ∧ Unicode.validate_birthdate T (text_of "2024-1-5") = true
  ∧ Unicode.validate_birthdate T (text_of "2024-13-05") = false
  ∧ Unicode.validate_birthdate T (text_of "2024-02-30") = false
  ∧ Unicode.validate_birthdate sample_digits
      ([65298; 65296; 65298; 65300] ++ text_of "-01-05") = true
  ∧ Unicode.validate_birthdate sample_digits
      (text_of "2024-01-1" ++ [1637]) = true.
Proof.
  split_and!.
  - apply validate_birthdate_true_accepted.
  - intros Hs. by apply validate_birthdate_true_accepted, strict_accepted.
  - rewrite validate_birthdate_text; [by vm_compute|].
    apply ascii_text_decide. by vm_compute.
  - rewrite validate_birthdate_text; [by vm_compute|].
    apply ascii_text_decide. by vm_compute.
  - rewrite validate_birthdate_text; [by vm_compute|].
    apply ascii_text_decide. by vm_compute.
  - by vm_compute.
  - by vm_compute.
Qed.

(** ** Calendar and birthdays *)

Lemma new_date_ok y m d x :
  new_date y m d = Ok x → x = mkDate y m d ∧ valid_date x.
Proof.
  unfold new_date. destruct (_ && _) eqn:Hc; [|discriminate].
  intros [= <-]. split; [done|]. unfold valid_date. simpl. boolZ. lia.
Qed.

Lemma month_cases m : 1 ≤ m ≤ 12 →
  m = 1 ∨ m = 2 ∨ m = 3 ∨ m = 4 ∨ m = 5 ∨ m = 6 ∨ m = 7 ∨ m = 8 ∨ m = 9
  ∨ m = 10 ∨ m = 11 ∨ m = 12.
Proof. lia. Qed.

Ltac months m H :=
  destruct (month_cases m H) as [->|[->|[->|[->|[->|[->|[->|[->|[->|[->|[->| ->]]]]]]]]]]].

Lemma tuple_gt_3 y1 m1 d1 y2 m2 d2 :
  tuple_gt [y1; m1; d1] [y2; m2; d2] = true ↔
  y2 < y1 ∨ (y1 = y2 ∧ (m2 < m1 ∨ (m1 = m2 ∧ d2 < d1))).
Proof.
  simpl. rewrite andb_false_r, orb_false_r.
  rewrite !orb_true_iff, !andb_true_iff, !orb_true_iff, !andb_true_iff.
  rewrite !Z.ltb_lt, !Z.eqb_eq. tauto.
Qed.

(** Within a year the ordinal follows the month and the day. *)
Lemma toordinal_same_year y m1 d1 m2 d2 :
  valid_date (mkDate y m1 d1) → valid_date (mkDate y m2 d2) →
  (m1 < m2 ∨ (m1 = m2 ∧ d1 ≤ d2)) →
  toordinal (mkDate y m1 d1) ≤ toordinal (mkDate y m2 d2)
  ∧ (toordinal (mkDate y m1 d1) = toordinal (mkDate y m2 d2) → m1 = m2 ∧ d1 = d2).
Proof.
  unfold valid_date, toordinal, days_in_month, days_before_month. simpl.
  intros (_ & Hm1 & Hd1) (_ & Hm2 & Hd2) Hle.
  destruct (is_leap y); months m1 Hm1; months m2 Hm2; simpl in *; lia.
Qed.

Lemma days_before_year_succ y :
  days_before_year (y + 1) = days_before_year y + 365 + (if is_leap y then 1 else 0).
Proof.
  unfold days_before_year, is_leap.
  replace (y + 1 - 1) with y by lia.
  destruct (Z.eqb_spec (y mod 4) 0), (Z.eqb_spec (y mod 100) 0),
    (Z.eqb_spec (y mod 400) 0); simpl; Z.div_mod_to_equations; lia.
Qed.

Lemma day_of_year_bound y m d :
  valid_date (mkDate y m d) →
  1 ≤ days_before_month y m + d ≤ 365 + (if is_leap y then 1 else 0).
Proof.
  unfold valid_date, days_in_month, days_before_month. simpl.
  intros (_ & Hm & Hd).
  destruct (is_leap y); months m Hm; simpl in *; lia.
Qed.

Lemma toordinal_next_year y m1 d1 m2 d2 :
  valid_date (mkDate y m1 d1) → valid_date (mkDate (y + 1) m2 d2) →
  toordinal (mkDate y m1 d1) < toordinal (mkDate (y + 1) m2 d2).
Proof.
  intros H1%day_of_year_bound H2%day_of_year_bound.
  unfold toordinal. simpl. rewrite days_before_year_succ. lia.
Qed.

Lemma date_sub_days a b : days (date_sub a b) = toordinal a - toordinal b.
Proof. unfold date_sub, new_timedelta. cbn [days]. change ((0 + 0 / 1000000) / 86400) with 0. lia. Qed.

(** The days counted by [upcoming_birthdays] for one birth date. *)
Lemma days_to_inv today b n :
  days_to today b = Ok n →
  ∃ t next,
    strptime (value b) = Ok t
    ∧ n = toordinal next - toordinal today
    ∧ month next = month (date_of t) ∧ day next = day (date_of t)
    ∧ valid_date next
    ∧ ((year next = year today ∧ date_gt today next = false)
       ∨ (year next = year today + 1
          ∧ date_gt today (mkDate (year today) (month next) (day next)) = true)).
Proof.
  unfold days_to. destruct (strptime (value b)) as [t|]; [|discriminate].
  cbn [bind]. unfold date_replace_year.
  destruct (new_date (year today) _ _) as [nb|] eqn:Hnb; [|discriminate].
  cbn [bind]. apply new_date_ok in Hnb as [-> Hv].
  destruct (date_gt today _) eqn:Hgt.
  - destruct (new_date (year today + 1) _ _) as [nb'|] eqn:Hnb'; [|discriminate].
    cbn [bind]. apply new_date_ok in Hnb' as [-> Hv']. rewrite date_sub_days. intros [= <-]. exists t, (mkDate (year today + 1) (month (date_of t)) (day (date_of t))).
    simpl. repeat split; try done; try apply Hv'. by right.
  - cbn [bind]. rewrite date_sub_days. intros [= <-].
    exists t, (mkDate (year today) (month (date_of t)) (day (date_of t))).
    simpl. repeat split; try done; try apply Hv. by left.
Qed.

Lemma days_to_nonneg today b n :
  valid_date today → days_to today b = Ok n →
  0 ≤ n
  ∧ (n = 0 → ∃ t, strptime (value b) = Ok t
              ∧ month (date_of t) = month today ∧ day (date_of t) = day today).
Proof.
  intros Hv (t & next & Ht & -> & Hm & Hd & Hvn & Hcase)%days_to_inv.
  destruct today as [y m d], next as [y' m' d']. simpl in *.
  destruct Hcase as [[-> Hgt]|[-> Hgt]].
  - assert (¬ (y < y ∨ y = y ∧ (m' < m ∨ m = m' ∧ d' < d))) as Hle.
    { rewrite <- tuple_gt_3. unfold date_gt in Hgt. simpl in Hgt |- *. by rewrite Hgt. }
    destruct (toordinal_same_year y m d m' d' Hv Hvn) as [Hord Heq]; [lia|].
    split; [lia|]. intros H0. destruct Heq as [-> ->]; [lia|].
    exists t. by rewrite <- Hm, <- Hd.
  - pose proof (toordinal_next_year y m d m' d' Hv Hvn). split; lia.
Qed.

Lemma upcoming_loop_names today w rs acc names :
  upcoming_loop today w rs acc = Ok names →
  ∀ n, n ∈ names ↔
    n ∈ acc ∨ ∃ r b k, r ∈ rs ∧ birthdate r = Some b ∧ days_to today b = Ok k
                       ∧ k ≤ w ∧ n = value (name r).
Proof.
  revert acc. induction rs as [|r rs IH]; intros acc; cbn [upcoming_loop].
  - intros [= <-] n. split; [by left|].
    intros [?|(r & b & k & Hr & _)]; [done|]. by apply elem_of_nil in Hr.
  - destruct (birthdate r) as [b|] eqn:Hb.
    + destruct (days_to today b) as [k|] eqn:Hk; [|discriminate]. cbn [bind].
      intros Hloop n. rewrite (IH _ Hloop n). split.
      * intros [Hn|(r' & b' & k' & Hr' & Hrest)].
        -- destruct (Z.leb_spec k w); [|by left].
           apply elem_of_app in Hn as [Hn|Hn%list_elem_of_singleton]; [by left|].
           right. exists r, b, k. rewrite elem_of_cons. tauto.
        -- right. exists r', b', k'. rewrite elem_of_cons. tauto.
      * intros [Hn|(r' & b' & k' & [->|Hr']%elem_of_cons & Hb' & Hk' & Hle & ->)].
        -- left. destruct (k <=? w); [apply elem_of_app|]; tauto.
        -- left. assert (b' = b) as -> by congruence.
           assert (k' = k) as -> by congruence.
           apply Z.leb_le in Hle. rewrite Hle. apply elem_of_app. right.
           by apply list_elem_of_singleton.
        -- right. by exists r', b', k'.
    + intros Hloop n. rewrite (IH _ Hloop n). split.
      * intros [?|(r' & b' & k' & Hr' & Hrest)]; [by left|].
        right. exists r', b', k'. rewrite elem_of_cons. tauto.
      * intros [?|(r' & b' & k' & [->|Hr']%elem_of_cons & Hb' & Hrest)]; [by left| |].
        -- congruence.
        -- right. by exists r', b', k'.
Qed.

Lemma upcoming_loop_returns today w rs acc :
  (∀ r b, r ∈ rs → birthdate r = Some b → ∃ k, days_to today b = Ok k) →
  ∃ names, upcoming_loop today w rs acc = Ok names.
Proof.
  revert acc. induction rs as [|r rs IH]; intros acc Hall; cbn [upcoming_loop].
  - by exists acc.
  - destruct (birthdate r) as [b|] eqn:Hb.
    + destruct (Hall r b) as [k ->]; [apply elem_of_cons; by left|done|].
      cbn [bind]. apply IH. intros r' b' Hr'. apply Hall. apply elem_of_cons. by right.
    + apply IH. intros r' b' Hr'. apply Hall. apply elem_of_cons. by right.
Qed.

(** Where no birth date makes the recomputation raise, [upcoming_birthdays]
    names exactly the contacts whose next birthday is at most [window] days
    away; the count is never negative, and with a window of 0 the contacts
    named have their birthday today. *)
Lemma upcoming_birthdays_names today (b : AddressBook) window :
  valid_date today →
  (∀ r bd, r ∈ PyDict.values (data b) → birthdate r = Some bd →
           ∃ k, days_to today bd = Ok k) →
  ∃ names,
    upcoming_birthdays today b window = Ok names
    ∧ (∀ n, n ∈ names ↔
         ∃ r bd k, r ∈ PyDict.values (data b) ∧ birthdate r = Some bd
                   ∧ days_to today bd = Ok k ∧ 0 ≤ k ≤ window
                   ∧ n = value (name r))
    ∧ (window = 0 → ∀ n, n ∈ names →
         ∃ r bd t, r ∈ PyDict.values (data b) ∧ birthdate r = Some bd
                   ∧ n = value (name r) ∧ strptime (value bd) = Ok t
                   ∧ month (date_of t) = month today
                   ∧ day (date_of t) = day today).
Proof.
  intros Hv Hall. unfold upcoming_birthdays.
  destruct (upcoming_loop_returns today window _ [] Hall) as [names Hnames].
  exists names. split; [done|].
  pose proof (upcoming_loop_names _ _ _ _ _ Hnames) as Hiff.
  assert (∀ n, n ∈ names ↔
         ∃ r bd k, r ∈ PyDict.values (data b) ∧ birthdate r = Some bd
                   ∧ days_to today bd = Ok k ∧ 0 ≤ k ≤ window
                   ∧ n = value (name r)) as Hiff'.
  { intros n. rewrite Hiff. split.
    - intros [Hn|(r & bd & k & Hr & Hbd & Hk & Hle & ->)]; [by apply elem_of_nil in Hn|].
      exists r, bd, k. destruct (days_to_nonneg _ _ _ Hv Hk). repeat split; try done.
    - intros (r & bd & k & Hr & Hbd & Hk & [_ Hle] & ->). right. by exists r, bd, k. }
  split; [done|].
  intros -> n (r & bd & k & Hr & Hbd & Hk & Hk0 & ->)%Hiff'.
  destruct (days_to_nonneg _ _ _ Hv Hk) as [_ Htoday].
  destruct Htoday as (t & Ht & Hm & Hd); [lia|]. by exists r, bd, t.
Qed.

Lemma strptime_midnight s t :
  strptime s = Ok t →
  hour t = 0 ∧ minute t = 0 ∧ second t = 0 ∧ microsecond t = 0.
Proof.
  unfold strptime. destruct (rmatch _ _ _ _) as [[rest g]|]; [|discriminate].
  case_bool_decide; [|discriminate].
  destruct (new_date _ _ _); [|discriminate]. by intros [= <-].
Qed.

Lemma tuple_gt_cons x a y b :
  tuple_gt (x :: a) (y :: b) = true ↔ y < x ∨ (x = y ∧ tuple_gt a b = true).
Proof.
  simpl. by rewrite orb_true_iff, andb_true_iff, Z.ltb_lt, Z.eqb_eq.
Qed.

(** Against midnight of a day, "later" is a later day, or the same day
    after midnight. *)
Lemma datetime_gt_midnight now d :
  valid_datetime now →
  datetime_gt now (mkDatetime d 0 0 0 0) = true ↔
  date_gt (date_of now) d = true
  ∨ (date_of now = d
     ∧ 0 < day_seconds now * 1000000 + microsecond now).
Proof.
  intros (_ & Hh & Hmi & Hs & Hus).
  unfold datetime_gt, date_gt, datetime_fields, date_fields, day_seconds.
  destruct now as [[y m dd] h mi s us], d as [y' m' d']. simpl in Hh, Hmi, Hs, Hus.
  cbn [date_of year month day hour minute second microsecond app].
  rewrite !tuple_gt_cons. cbn [tuple_gt].
  split.
  - intros H. destruct (decide (y = y' ∧ m = m' ∧ dd = d')) as [(-> & -> & ->)|Hne].
    + right. split; [done|]. lia.
    + left. lia.
  - intros [H|[[= -> -> ->] H]]; [lia|].
    right. split; [done|]. right. split; [done|]. right. split; [done|]. lia.
Qed.

Lemma days_to_birthdate_nonneg now r n :
  valid_datetime now → days_to_birthdate now r = Ok (Days n) → 0 ≤ n.
Proof.
  intros Hv. pose proof Hv as (Hvd & Hh & Hmi & Hs & Hus).
  unfold days_to_birthdate.
  destruct (birthdate r) as [b|]; [|discriminate].
  case_bool_decide; [discriminate|].
  destruct (strptime (value b)) as [t|] eqn:Ht; [|discriminate]. cbn [bind].
  apply strptime_midnight in Ht as (Hth & Htm & Hts & Htu).
  unfold replace_year, date_replace_year. cbn [date_of month day].
  destruct (new_date (year (date_of now)) _ _) as [nb|] eqn:Hnb; [|discriminate].
  cbn [bind hour minute second microsecond date_of month day].
  rewrite Hth, Htm, Hts, Htu.
  apply new_date_ok in Hnb as [Hnb Hvnb].
  destruct (datetime_gt now _) eqn:Hgt.
  - destruct (new_date (year (date_of now) + 1) _ _) as [nb'|] eqn:Hnb'; [|discriminate].
    cbn [bind]. apply new_date_ok in Hnb' as [Hnb' Hvnb']. intros [= <-].
    unfold datetime_sub, new_timedelta, day_seconds.
    cbn [days date_of hour minute second microsecond].
    destruct (date_of now) as [y m d] eqn:Hnow. subst nb nb'.
    cbn [year month day] in *.
    pose proof (toordinal_next_year y m d _ _ Hvd Hvnb').
    Z.div_mod_to_equations. lia.
  - cbn [bind]. intros [= <-].
    apply not_true_iff_false in Hgt. rewrite datetime_gt_midnight in Hgt by done.
    unfold datetime_sub, new_timedelta, day_seconds in *.
    cbn [days date_of hour minute second microsecond].
    destruct (date_of now) as [y m d] eqn:Hnow. subst nb.
    cbn [year month day] in *.
    assert (¬ (y < y ∨ y = y ∧ (month (date_of t) < m
               ∨ m = month (date_of t) ∧ day (date_of t) < d))) as Hle.
    { rewrite <- tuple_gt_3. intros Hd. apply Hgt. by left. }
    destruct (toordinal_same_year y m d _ _ Hvd Hvnb) as [Hord Heq]; [lia|].
    destruct (decide (toordinal (mkDate y m d)
                      = toordinal (mkDate y (month (date_of t)) (day (date_of t)))))
      as [Hsame|Hdiff].
    + destruct (Heq Hsame) as [Hm Hd]. rewrite <- Hm, <- Hd in *.
      assert (¬ 0 < (second now + minute now * 60 + hour now * 3600) * 1000000
                    + microsecond now) as Hz by (intros ?; apply Hgt; by right).
      Z.div_mod_to_equations. lia.
    + Z.div_mod_to_equations. lia.
Qed.

Lemma toordinal_year_later y m d :
  1 ≤ m ≤ 12 →
  365 ≤ toordinal (mkDate (y + 1) m d) - toordinal (mkDate y m d).
Proof.
  intros Hm. unfold toordinal. cbn [year month day].
  rewrite days_before_year_succ. unfold days_before_month.
  assert (is_leap y = true → is_leap (y + 1) = false) as Hleap.
  { unfold is_leap. rewrite !andb_true_iff, andb_false_iff, !Z.eqb_eq, Z.eqb_neq.
    intros [H4 _]. left. Z.div_mod_to_equations. lia. }
  destruct (is_leap y); [rewrite Hleap by done|destruct (is_leap (y + 1))];
    months m Hm; simpl; lia.
Qed.

(** On the birthday itself, once midnight has passed, [days_to_birthdate]
    counts to the birthday of the next year. *)
Lemma days_to_birthdate_on_the_day now r b t n :
  valid_datetime now →
  birthdate r = Some b → strptime (value b) = Ok t →
  month (date_of t) = month (date_of now) → day (date_of t) = day (date_of now) →
  0 < day_seconds now * 1000000 + microsecond now →
  days_to_birthdate now r = Ok (Days n) → 364 ≤ n.
Proof.
  intros Hv Hb Ht Hm Hd Hlate. pose proof Hv as (Hvd & Hh & Hmi & Hs & Hus).
  unfold days_to_birthdate. rewrite Hb.
  case_bool_decide; [discriminate|]. rewrite Ht. cbn [bind].
  apply strptime_midnight in Ht as (Hth & Htm & Hts & Htu).
  unfold replace_year, date_replace_year. cbn [date_of month day].
  rewrite Hm, Hd.
  destruct (new_date (year (date_of now)) _ _) as [nb|] eqn:Hnb; [|discriminate].
  cbn [bind hour minute second microsecond date_of month day].
  rewrite Hth, Htm, Hts, Htu.
  apply new_date_ok in Hnb as [Hnb Hvnb].
  assert (nb = date_of now) as -> by (rewrite Hnb; by destruct (date_of now)).
  rewrite (proj2 (datetime_gt_midnight now (date_of now) Hv)) by (by right).
  destruct (new_date (year (date_of now) + 1) _ _) as [nb'|] eqn:Hnb'; [|discriminate].
  cbn [bind]. apply new_date_ok in Hnb' as [-> _]. intros [= <-].
  unfold datetime_sub, new_timedelta, day_seconds in *.
  cbn [days date_of hour minute second microsecond].
  destruct Hvd as (_ & Hmonth & _).
  pose proof (toordinal_year_later (year (date_of now)) _ (day (date_of now)) Hmonth) as Hy.
  destruct (date_of now) as [y m d]. cbn [year month day] in *.
  Z.div_mod_to_equations. lia.
Qed.

(** C3, on the code: at noon on 15 June 2024, a birthday on 15 June is
    364 days away and a birthday on 16 June is 0 days away; on a contact
    born on 29 February the call raises. *)
Theorem days_to_birthdate_at_noon :
  days_to_birthdate noon (born "Ann" "2000-06-15") = Ok (Days 364)
  ∧ days_to_birthdate noon (born "Ann" "2000-06-16") = Ok (Days 0)
  ∧ days_to (date_of noon) (mkField "2000-06-15") = Ok 0
  ∧ days_to (date_of noon) (mkField "2000-06-16") = Ok 1
  ∧ new_BirthDate "2000-02-29" = Ok (mkField "2000-02-29")
  ∧ days_to_birthdate noon (born "Ann" "2000-02-29") = ValueError.
Proof. repeat split; by vm_compute. Qed.

(** C8, on the code: on 15 June 2023, with a contact born on 15 June and
    one born on 29 February in the book, the call raises and no name comes
    out, whatever the window; without the second contact the first is
    named. *)
Theorem upcoming_birthdays_leap_day (window : Z) :
  new_BirthDate "2000-02-29" = Ok (mkField "2000-02-29")
  ∧ upcoming_birthdays (mkDate 2023 6 15) leap_day_book window = ValueError
  ∧ upcoming_birthdays (mkDate 2023 6 15)
      (add_record new_book (born "Ann" "2000-06-15")).1 0 = Ok ["Ann"].
Proof.
  split; [by vm_compute|]. split; [|by vm_compute].
  unfold upcoming_birthdays.
  change (PyDict.values (data leap_day_book))
    with [set_id 1 (born "Ann" "2000-06-15"); set_id 2 (born "Bob" "2000-02-29")].
  cbn [upcoming_loop birthdate set_id born new_record].
  replace (days_to (mkDate 2023 6 15) (mkField "2000-06-15")) with (Ok 0 : result Z)
    by (by vm_compute).
  cbn [bind].
  replace (days_to (mkDate 2023 6 15) (mkField "2000-02-29")) with (@ValueError Z)
    by (by vm_compute).
  reflexivity.
Qed.

(** ** Notes *)

Lemma delete_note_inside nb pos :
  1 ≤ pos ≤ Z.of_nat (length (notes nb)) →
  delete_note nb pos =
    ({| notes := delete (Z.to_nat (pos - 1)) (notes nb) |},
     "Usunięto notatkę: " +:+ pretty pos).
Proof.
  intros [H1 H2]. unfold delete_note.
  apply Z.leb_le in H1, H2. by rewrite H1, H2.
Qed.

Lemma delete_note_outside nb pos :
  pos < 1 ∨ Z.of_nat (length (notes nb)) < pos →
  delete_note nb pos = (nb, "Nie ma notatki o podanym ID.").
Proof.
  intros H. unfold delete_note.
  destruct (1 <=? pos) eqn:H1; [|done].
  destruct (pos <=? Z.of_nat (length (notes nb))) eqn:H2; [|done].
  apply Z.leb_le in H1, H2. lia.
Qed.

(** [delete_note] refuses the position exactly when it is outside 1..len,
    so for 0 and for len+1; inside, it removes the note at that place, and
    on a notebook of one note position 1 leaves it empty. *)
Lemma delete_note_range (nb : Notebook) (pos : Z) :
  let len := Z.of_nat (length (notes nb)) in
  (out_of_range nb (delete_note nb pos) ↔ pos < 1 ∨ len < pos)
  ∧ out_of_range nb (delete_note nb 0)
  ∧ out_of_range nb (delete_note nb (len + 1))
  ∧ (if decide (1 ≤ pos ≤ len) then
       notes (delete_note nb pos).1 = delete (Z.to_nat (pos - 1)) (notes nb)
       ∧ length (notes (delete_note nb pos).1) = pred (length (notes nb))
     else (delete_note nb pos).1 = nb)
  ∧ ∀ note, (delete_note {| notes := [note] |} 1).1 = {| notes := [] |}
            ∧ ¬ out_of_range {| notes := [note] |} (delete_note {| notes := [note] |} 1).
Proof.
  intros len. split; [split|split; [|split; [|split]]].
  - intros Hout. destruct (decide (1 ≤ pos ≤ len)) as [Hin|]; [|lia].
    unfold out_of_range in Hout. rewrite delete_note_inside in Hout by done.
    simplify_eq.
  - apply delete_note_outside.
  - apply delete_note_outside. lia.
  - apply delete_note_outside. lia.
  - case_decide as Hin.
    + rewrite delete_note_inside by done. simpl. split; [done|].
      rewrite length_delete; [lia|]. apply lookup_lt_is_Some. lia.
    + rewrite delete_note_outside by lia. done.
  - intros note. split; [done|].
    intros Hout. unfold out_of_range in Hout. simplify_eq.
Qed.

(** The [del] of [delete_note] is never out of the list: the call returns,
    with what [delete_note] gives. *)
Lemma delete_note_call_returns (nb : Notebook) (pos : Z) :
  delete_note_call nb pos = Returns (delete_note nb pos).
Proof.
  unfold delete_note_call, delete_note, py_del.
  destruct ((1 <=? pos) && (pos <=? Z.of_nat (length (notes nb)))) eqn:Hin; [|done].
  apply andb_true_iff in Hin as [H1%Z.leb_le H2%Z.leb_le].
  replace ((0 <=? pos - 1) && (pos - 1 <? Z.of_nat (length (notes nb)))) with true; [done|].
  symmetry. apply andb_true_iff. split; [apply Z.leb_le|apply Z.ltb_lt]; lia.
Qed.

(** C6, as stated, fails: position 0 on a notebook of one note is outside
    1..1, and the call raises nothing; it returns, the notebook as it was
    and the line printed. *)
Lemma delete_note_raises_nothing :
  (0 < 1 ∨ Z.of_nat (length (notes shopping)) < 0)
  ∧ ¬ fails (delete_note_call shopping 0)
  ∧ delete_note_call shopping 0 = Returns (shopping, "Nie ma notatki o podanym ID.").
Proof.
  split; [left; lia|]. split; [|reflexivity].
  intros [e He]. discriminate He.
Qed.

(** C6, amended. [delete_note] never raises.  It refuses the position,
    leaving the notebook as it is and printing that there is no such note,
    exactly when the position is outside 1..len, so for 0 and for len+1;
    inside, it removes the note at that place, and on a notebook of one
    note position 1 leaves it empty. *)
Theorem delete_note_refuses (nb : Notebook) (pos : Z) :
  let len := Z.of_nat (length (notes nb)) in
  ¬ fails (delete_note_call nb pos)
  ∧ delete_note_call nb pos = Returns (delete_note nb pos)
  ∧ (out_of_range nb (delete_note nb pos) ↔ pos < 1 ∨ len < pos)
  ∧ out_of_range nb (delete_note nb 0)
  ∧ out_of_range nb (delete_note nb (len + 1))
  ∧ (if decide (1 ≤ pos ≤ len) then
       notes (delete_note nb pos).1 = delete (Z.to_nat (pos - 1)) (notes nb)
       ∧ length (notes (delete_note nb pos).1) = pred (length (notes nb))
     else (delete_note nb pos).1 = nb)
  ∧ ∀ note, (delete_note {| notes := [note] |} 1).1 = {| notes := [] |}
            ∧ ¬ out_of_range {| notes := [note] |} (delete_note {| notes := [note] |} 1).
Proof.
  intros len. split; [|split; [apply delete_note_call_returns|apply delete_note_range]].
  rewrite delete_note_call_returns. intros [e He]. discriminate He.
Qed.

(** ** Tags *)

Lemma sorted_set_sorted (l : list string) : StronglySorted String.le (sorted_set l).
Proof. apply StronglySorted_merge_sort; apply _. Qed.

Lemma sorted_set_NoDup (l : list string) : NoDup (sorted_set l).
Proof.
  unfold sorted_set. rewrite merge_sort_Permutation. apply NoDup_remove_dups.
Qed.

Lemma elem_of_sorted_set (l : list string) (t : string) : t ∈ sorted_set l ↔ t ∈ l.
Proof.
  unfold sorted_set. rewrite merge_sort_Permutation. apply elem_of_remove_dups.
Qed.

Lemma sort_tags_keys (nb : Notebook) :
  (sort_tags nb).*1 = sorted_set (mbind tags (notes nb)).
Proof.
  unfold sort_tags. rewrite <- list_fmap_compose.
  rewrite <- (list_fmap_id (sorted_set _)) at 2. by apply list_fmap_ext.
Qed.

(** C7. The keys of what [sort_tags] returns are the tags found on some
    note, each once, in the order of the strings; a key goes with the
    notes that carry it, in the order of the notebook.  Over notes tagged
    b; a; a and b the keys are a, b, with the second and third note under
    a and the first and third under b. *)
Theorem sort_tags_grouping (nb : Notebook) :
  StronglySorted String.le (sort_tags nb).*1
  ∧ NoDup (sort_tags nb).*1
  ∧ (∀ t, t ∈ (sort_tags nb).*1 ↔ ∃ note, note ∈ notes nb ∧ t ∈ tags note)
  ∧ (∀ t ns, (t, ns) ∈ sort_tags nb ↔
       t ∈ (sort_tags nb).*1 ∧ ns = filter (λ note, t ∈ tags note) (notes nb))
  ∧ (∀ c1 c2 c3 now,
       let n1 := mkNote c1 now ["b"] in
       let n2 := mkNote c2 now ["a"] in
       let n3 := mkNote c3 now ["a"; "b"] in
       sort_tags {| notes := [n1; n2; n3] |} = [("a", [n2; n3]); ("b", [n1; n3])]).
Proof.
  split; [|split; [|split; [|split]]].
  - rewrite sort_tags_keys. apply sorted_set_sorted.
  - rewrite sort_tags_keys. apply sorted_set_NoDup.
  - intros t. rewrite sort_tags_keys, elem_of_sorted_set, list_elem_of_bind.
    split; intros (note & ? & ?); by exists note.
  - intros t ns. rewrite sort_tags_keys. unfold sort_tags.
    rewrite list_elem_of_fmap. split.
    + intros (t' & [= -> ->] & Hin). done.
    + intros [Hin ->]. by exists t.
  - intros c1 c2 c3 now. reflexivity.
Qed.

Lemma add_tag_inside nb pos tag :
  1 ≤ pos ≤ Z.of_nat (length (notes nb)) →
  add_tag nb pos tag =
    ({| notes := alter (λ note, note_add_tag note tag)
                       (Z.to_nat (pos - 1)) (notes nb) |},
     "Do notatki dodano tag: " +:+ tag).
Proof.
  intros [H1 H2]. unfold add_tag.
  apply Z.leb_le in H1, H2. by rewrite H1, H2.
Qed.

(** C4, as stated, fails: a note without tags has the tag twice after two
    calls and once after one. *)
Lemma add_tag_twice_differs :
  (add_tag (add_tag shopping 1 "shop").1 1 "shop").1 ≠ (add_tag shopping 1 "shop").1
  ∧ tags <$> notes (add_tag shopping 1 "shop").1 = [["shop"]]
  ∧ tags <$> notes (add_tag (add_tag shopping 1 "shop").1 1 "shop").1
    = [["shop"; "shop"]].
Proof.
  split; [|split]; [|reflexivity|reflexivity].
  intros Heq. vm_compute in Heq. discriminate Heq.
Qed.

(** C4, amended. The tags of a note are a list and [add_tag] appends to
    it: at a position inside the notebook, the note has the tag once more
    after two calls than after one, every other note is as it was, and
    the tags found on the note are the same after one call and after
    two. *)
Theorem add_tag_twice (nb : Notebook) (pos : Z) (tag : string) :
  1 ≤ pos ≤ Z.of_nat (length (notes nb)) →
  let i := Z.to_nat (pos - 1) in
  let once := (add_tag nb pos tag).1 in
  let twice := (add_tag once pos tag).1 in
  ∃ note,
    notes nb !! i = Some note
    ∧ notes once = <[i := note_add_tag note tag]> (notes nb)
    ∧ notes twice = <[i := note_add_tag (note_add_tag note tag) tag]> (notes nb)
    ∧ tags (note_add_tag note tag) = tags note ++ [tag]
    ∧ tags (note_add_tag (note_add_tag note tag) tag) = tags note ++ [tag; tag]
    ∧ ∀ t, t ∈ tags (note_add_tag (note_add_tag note tag) tag)
           ↔ t ∈ tags (note_add_tag note tag).
Proof.
  intros Hpos i once twice.
  assert (i < length (notes nb))%nat as Hi by (unfold i; lia).
  destruct (lookup_lt_is_Some_2 _ _ Hi) as [note Hnote].
  assert (notes once = <[i := note_add_tag note tag]> (notes nb)) as Honce.
  { unfold once. rewrite add_tag_inside by done. simpl. fold i.
    apply list_eq. intros j. destruct (decide (i = j)) as [<-|Hne].
    - rewrite list_lookup_alter_eq, list_lookup_insert_eq by done.
      by rewrite Hnote.
    - by rewrite list_lookup_alter_ne, list_lookup_insert_ne. }
  exists note. split; [done|]. split; [done|]. split.
  - unfold twice. rewrite add_tag_inside by (rewrite Honce, length_insert; done).
    simpl. fold i. rewrite Honce. apply list_eq. intros j.
    destruct (decide (i = j)) as [<-|Hne].
    + rewrite list_lookup_alter_eq. rewrite !list_lookup_insert_eq by done. done.
    + rewrite list_lookup_alter_ne by done. by rewrite !list_lookup_insert_ne.
  - split; [done|]. split; [simpl; by rewrite <- app_assoc|].
    intros t. simpl. rewrite !elem_of_app, !list_elem_of_singleton. tauto.
Qed.

(** A notebook of two notes, the tag put on the second. *)
Lemma add_tag_twice_witness :
  1 ≤ 2 ≤ Z.of_nat (length (notes errands))
  ∧ ∃ note,
      notes errands !! 1%nat = Some note
      ∧ notes (add_tag errands 2 "shop").1
        = <[1%nat := note_add_tag note "shop"]> (notes errands)
      ∧ notes (add_tag (add_tag errands 2 "shop").1 2 "shop").1
        = <[1%nat := note_add_tag (note_add_tag note "shop") "shop"]> (notes errands)
      ∧ tags (note_add_tag note "shop") = tags note ++ ["shop"]
      ∧ tags (note_add_tag (note_add_tag note "shop") "shop")
        = tags note ++ ["shop"; "shop"]
      ∧ ∀ t, t ∈ tags (note_add_tag (note_add_tag note "shop") "shop")
             ↔ t ∈ tags (note_add_tag note "shop").
Proof.
  assert (1 ≤ 2 ≤ Z.of_nat (length (notes errands))) as Hpos by (simpl; lia).
  split; [exact Hpos|]. exact (add_tag_twice errands 2 "shop" Hpos).
Defined.

(** ** Loading *)

(** Without a file both loaders give an empty collection, and so does
    [load_address_book] after any other failure. *)
Lemma load_missing_empty (nb : Notebook) (e : string) :
  notes (load_notes nb FileNotFoundError).1 = []
  ∧ (load_address_book FileNotFoundError).1 = new_book
  ∧ (load_address_book (OtherException e)).1 = new_book.
Proof. done. Qed.

(** C5, on the code: when reading the notes fails for another reason than
    a missing file, [load_notes] prints the warning and keeps the notes it
    had; a notebook that was not empty is not empty afterwards. *)
Theorem load_notes_keeps_notes (nb : Notebook) (e : string) :
  load_notes nb (OtherException e)
    = (nb, ["Wystąpił błąd podczas wczytywania notatek: " +:+ e])
  ∧ notes (load_notes shopping (OtherException e)).1 ≠ [].
Proof. split; [done|]. simpl. discriminate. Qed.

(** * Further properties *)

(** ** The address book *)

Lemma prefix_refl s : String.prefix s s = true.
Proof.
  induction s as [|c s IH]; simpl; [done|].
  destruct (ascii_dec c c) as [_|Hne]; [exact IH|by destruct Hne].
Qed.

Lemma contains_refl s : contains s s = true.
Proof. destruct s; cbn [contains]; by rewrite prefix_refl. Qed.

Lemma contains_empty s : contains "" s = true.
Proof. by destruct s. Qed.

Section dict_more.
Context {V : Type}.
Implicit Types (d : PyDict.dict V) (k x : Z) (v : V).

Lemma set_elem_of k v d : (k, v) ∈ PyDict.set k v d.
Proof.
  induction d as [|[k' v'] d IH]; simpl.
  - by apply list_elem_of_singleton.
  - case_decide; rewrite elem_of_cons; auto.
Qed.

Lemma set_fresh k v d : k ∉ PyDict.keys d → PyDict.set k v d = d ++ [(k, v)].
Proof.
  unfold PyDict.keys. induction d as [|[k' v'] d IH]; simpl; [done|].
  rewrite not_elem_of_cons. intros [Hne Hk].
  case_decide; [done|]. by rewrite IH.
Qed.

Lemma set_keys_NoDup k v d : NoDup (PyDict.keys d) → NoDup (PyDict.keys (PyDict.set k v d)).
Proof.
  unfold PyDict.keys. induction d as [|[k' v'] d IH]; simpl.
  - intros _. apply NoDup_singleton.
  - rewrite NoDup_cons. intros [Hk' Hd]. case_decide as Hk.
    + subst k'. simpl. by apply NoDup_cons.
    + simpl. apply NoDup_cons. split; [|by apply IH].
      intros Hin. apply Hk'.
      assert (k' ∈ PyDict.keys (PyDict.set k v d)) as Hin' by done.
      apply keys_set in Hin' as [->|Hin']; done.
Qed.

Lemma del_keys_NoDup k d : NoDup (PyDict.keys d) → NoDup (PyDict.keys (PyDict.del k d)).
Proof.
  intros Hd. apply (sublist_NoDup _ (PyDict.keys d)); [done|].
  unfold PyDict.keys, PyDict.del. apply fmap_sublist, sublist_filter.
Qed.

Lemma del_elem_of k d kv : kv ∈ PyDict.del k d ↔ kv ∈ d ∧ kv.1 ≠ k.
Proof. unfold PyDict.del. rewrite list_elem_of_filter. tauto. Qed.

Lemma del_absent k d : k ∉ PyDict.keys d → PyDict.del k d = d.
Proof.
  unfold PyDict.keys, PyDict.del, PyDict.dict in *. induction d as [|[k' v'] d IH]; [done|].
  rewrite fmap_cons, not_elem_of_cons. intros [Hne Hk].
  rewrite filter_cons_True by done. by rewrite IH.
Qed.
End dict_more.

Lemma add_record_not_key b r :
  separate b → (add_record b r).2 ∉ PyDict.keys (data b).
Proof.
  intros Hsep.
  destruct (add_record_cases b r) as (c & (_ & Hfree & _) & Hcase).
  case_decide.
  - rewrite Hcase. simpl. intros Hin.
    assert (taken b c = true) as Ht by (apply taken_true; by left).
    congruence.
  - destruct Hcase as (m & [Hin _] & ->). simpl. intros Hk. by apply (Hsep m).
Qed.

Lemma add_record_data b r :
  data (add_record b r).1
  = PyDict.set (add_record b r).2 (set_id (add_record b r).2 r) (data b).
Proof. unfold add_record. by case_bool_decide. Qed.

(** X1. The contact just added is found under its own name, with the id
    it was given. *)
Theorem add_record_found_by_name (b : AddressBook) (r : ContactRecord) :
  let rid := (add_record b r).2 in
  (rid, set_id rid r) ∈ find_records_by_name (add_record b r).1 (value (name r)).
Proof.
  intros rid. unfold find_records_by_name. apply list_elem_of_filter.
  split; [simpl; apply contains_refl|].
  rewrite add_record_data. apply set_elem_of.
Qed.

(** X2. On a book the program can hold, [add_record] puts the contact
    after all the others and leaves them as they were. *)
Theorem add_record_appends (b : AddressBook) (r : ContactRecord) :
  reachable b →
  data (add_record b r).1
  = data b ++ [((add_record b r).2, set_id (add_record b r).2 r)].
Proof.
  intros Hsep%reachable_separate. rewrite add_record_data.
  apply set_fresh. by apply add_record_not_key.
Qed.

(** The stored book of the samples. *)
Lemma add_record_appends_witness :
  reachable stored
  ∧ data (add_record stored ann).1
    = data stored ++ [((add_record stored ann).2, set_id (add_record stored ann).2 ann)].
Proof.
  split; [apply reach_load|]. apply (add_record_appends stored ann). apply reach_load.
Defined.

(** X3. [delete_record_by_id] takes out the entries with that id and
    keeps the others, in their order; the id becomes free when it was a
    key, and an id that is no key changes nothing. *)
Theorem delete_record_by_id_effect (b : AddressBook) (k : Z) :
  let b' := delete_record_by_id b k in
  (∀ kv, kv ∈ data b' ↔ kv ∈ data b ∧ kv.1 ≠ k)
  ∧ sublist (data b') (data b)
  ∧ next_id b' = next_id b
  ∧ (if decide (k ∈ PyDict.keys (data b))
     then free_ids b' = free_ids b ∪ {[k]}
     else b' = b).
Proof.
  intros b'. unfold b', delete_record_by_id.
  destruct (PyDict.mem k (data b)) eqn:Hmem.
  - apply mem_true in Hmem. rewrite decide_True by done. simpl.
    split; [intros kv; apply del_elem_of|]. split; [apply sublist_filter|done].
  - assert (k ∉ PyDict.keys (data b)) as Hk.
    { intros Hin%mem_true. congruence. }
    rewrite decide_False by done. split; [|done].
    intros kv. split; [|tauto]. intros Hin. split; [done|].
    intros Heq. apply Hk. unfold PyDict.keys. apply list_elem_of_fmap. by exists kv.
Qed.

(** X4. An id that is deleted and is below every free id is the one the
    next contact gets. *)
Theorem deleted_id_reused (b : AddressBook) (k : Z) (r : ContactRecord) :
  k ∈ PyDict.keys (data b) → (∀ j, j ∈ free_ids b → k < j) →
  (add_record (delete_record_by_id b k) r).2 = k.
Proof.
  intros Hk Hmin.
  assert (free_ids (delete_record_by_id b k) = free_ids b ∪ {[k]}) as Hfree.
  { unfold delete_record_by_id. apply mem_true in Hk. by rewrite Hk. }
  destruct (add_record_cases (delete_record_by_id b k) r) as (c & _ & Hcase).
  case_decide as Hempty.
  - exfalso. apply (not_elem_of_empty (C:=gset Z) k). rewrite <- Hempty, Hfree.
    apply elem_of_union. right. by apply elem_of_singleton.
  - destruct Hcase as (m & [Hin Hle] & ->). simpl.
    rewrite Hfree in Hin, Hle.
    apply elem_of_union in Hin as [Hin|Hin%elem_of_singleton]; [|done].
    assert (k ∈ free_ids b ∪ {[k]}) as Hkin
      by (apply elem_of_union; right; by apply elem_of_singleton).
    specialize (Hmin m Hin). specialize (Hle k Hkin). lia.
Qed.

(** Two contacts, the first deleted: its id 1 comes back. *)
Lemma deleted_id_reused_witness :
  1 ∈ PyDict.keys (data two_contacts)
  ∧ (∀ j, j ∈ free_ids two_contacts → 1 < j)
  ∧ (add_record (delete_record_by_id two_contacts 1) ann).2 = 1.
Proof.
  assert (1 ∈ PyDict.keys (data two_contacts)) as Hk by (by apply mem_true; vm_compute).
  assert (∀ j, j ∈ free_ids two_contacts → 1 < j) as Hfree.
  { intros j Hj. by apply not_elem_of_empty in Hj. }
  split; [exact Hk|]. split; [exact Hfree|].
  exact (deleted_id_reused two_contacts 1 ann Hk Hfree).
Defined.

(** *** Books built in one run *)

Lemma set_inv {V} k (v : V) d kv :
  kv ∈ PyDict.set k v d → kv = (k, v) ∨ kv ∈ d.
Proof.
  induction d as [|[k' v'] d IH]; simpl.
  - intros ->%list_elem_of_singleton. by left.
  - case_decide; rewrite !elem_of_cons; [tauto|].
    intros [->|Hin]; [tauto|]. destruct (IH Hin); tauto.
Qed.

Lemma numbered_advanced b c : numbered b → advanced b c → c = next_id b.
Proof.
  intros (_ & Hids & _) (Hle & _ & Hall).
  destruct (decide (c = next_id b)) as [|Hne]; [done|].
  assert (taken b (next_id b) = true) as Ht by (apply Hall; lia).
  apply taken_true, Hids in Ht. lia.
Qed.

Lemma add_record_numbered b r : numbered b → numbered (add_record b r).1.
Proof.
  intros Hb. pose proof Hb as (H1 & Hids & Hsep & Hnd & Hid).
  destruct (add_record_cases b r) as (c & Hadv & Hcase).
  pose proof (numbered_advanced b c Hb Hadv) as ->.
  case_decide as Hfree.
  - rewrite Hcase. unfold numbered. simpl.
    split; [lia|]. split; [|split; [|split]].
    + intros i. rewrite keys_set, Hfree.
      specialize (Hids i). rewrite Hfree in Hids.
      split; [intros Hi|intros [[->|Hi]|Hi]].
      * destruct (decide (i = next_id b)); [tauto|].
        left. right. destruct Hids as [Hids _]. destruct Hids; [lia|done|].
        by apply not_elem_of_empty in H.
      * lia.
      * apply (or_introl (B:=i ∈ (∅ : gset Z))), Hids in Hi. lia.
      * by apply not_elem_of_empty in Hi.
    + intros k _. rewrite Hfree. apply not_elem_of_empty.
    + by apply set_keys_NoDup.
    + intros k r' [[= -> ->]|Hin]%set_inv; [done|by apply Hid].
  - destruct Hcase as (m & [Hm Hmin] & ->). unfold numbered. simpl.
    split; [done|]. split; [|split; [|split]].
    + intros i. rewrite keys_set, elem_of_difference, elem_of_singleton, Hids.
      destruct (decide (i = m)) as [->|]; tauto.
    + unfold separate. simpl. intros k.
      rewrite keys_set, elem_of_difference, elem_of_singleton.
      intros [->|Hk] [Hf Hne]; [done|]. by apply (Hsep k).
    + by apply set_keys_NoDup.
    + intros k r' [[= -> ->]|Hin]%set_inv; [done|by apply Hid].
Qed.

Lemma delete_record_numbered b k : numbered b → numbered (delete_record_by_id b k).
Proof.
  intros (H1 & Hids & Hsep & Hnd & Hid). unfold delete_record_by_id.
  destruct (PyDict.mem k (data b)) eqn:Hmem; [|done].
  apply mem_true in Hmem. unfold numbered. simpl.
  split; [done|]. split; [|split; [|split]].
  - intros i. rewrite keys_del, elem_of_union, elem_of_singleton, Hids.
    destruct (decide (i = k)) as [->|]; tauto.
  - unfold separate. simpl. intros x.
    rewrite keys_del, elem_of_union, elem_of_singleton.
    intros [Hne Hx] [Hf|Heq]; [|done]. by apply (Hsep x).
  - by apply del_keys_NoDup.
  - intros k' r' [Hin _]%del_elem_of. by apply Hid.
Qed.

(** X5. In a book built in one run from the empty book, the ids from 1 up
    to [next_id] (left out) are exactly the keys and the free ids, none is
    both, no key stands twice, and every contact carries the id it is
    filed under. *)
Theorem built_numbered (b : AddressBook) :
  built b →
  1 ≤ next_id b
  ∧ (∀ i, 1 ≤ i < next_id b ↔ i ∈ PyDict.keys (data b) ∨ i ∈ free_ids b)
  ∧ (∀ k, k ∈ PyDict.keys (data b) → k ∉ free_ids b)
  ∧ NoDup (PyDict.keys (data b))
  ∧ ∀ k r, (k, r) ∈ data b → id r = Some k.
Proof.
  induction 1 as [|b r _ IH|b k _ IH].
  - split; [done|]. split; [|split; [|split]].
    + intros i. simpl. split; [lia|].
      intros [Hi|Hi]; [by apply elem_of_nil in Hi|by apply not_elem_of_empty in Hi].
    + intros k Hk. by apply elem_of_nil in Hk.
    + apply NoDup_nil_2.
    + intros k r Hin. by apply elem_of_nil in Hin.
  - by apply add_record_numbered.
  - by apply delete_record_numbered.
Qed.

(** Two additions and a deletion. *)
Lemma built_numbered_witness :
  built recycled
  ∧ 1 ≤ next_id recycled
  ∧ (∀ i, 1 ≤ i < next_id recycled
          ↔ i ∈ PyDict.keys (data recycled) ∨ i ∈ free_ids recycled)
  ∧ (∀ k, k ∈ PyDict.keys (data recycled) → k ∉ free_ids recycled)
  ∧ NoDup (PyDict.keys (data recycled))
  ∧ ∀ k r, (k, r) ∈ data recycled → id r = Some k.
Proof.
  assert (built recycled) as Hb.
  { unfold recycled. apply built_delete, built_add, built_add, built_new. }
  split; [exact Hb|]. exact (built_numbered recycled Hb).
Defined.

(** X6. On a book read from the store the next contact gets the smallest
    id from 1 on that is no key of the stored records, whatever ids were
    free when the book was saved. *)
Theorem loaded_book_first_gap (d : PyDict.dict ContactRecord) (r : ContactRecord) :
  let b := (load_address_book (Unpickled d)).1 in
  let rid := (add_record b r).2 in
  1 ≤ rid
  ∧ (rid ∉ PyDict.keys d)
  ∧ (∀ i, 1 ≤ i < rid → i ∈ PyDict.keys d)
  ∧ next_id (add_record b r).1 = rid + 1
  ∧ free_ids (add_record b r).1 = ∅.
Proof.
  intros b rid. unfold rid.
  destruct (add_record_cases b r) as (c & (Hle & Hfree & Hall) & Hcase).
  rewrite decide_True in Hcase by done. rewrite Hcase. simpl in *.
  split; [done|]. split; [|split; [|done]].
  - intros Hin. assert (taken b c = true) as Ht by (apply taken_true; by left).
    congruence.
  - intros i Hi. apply Hall, taken_true in Hi as [Hi|Hi]; [done|].
    by apply not_elem_of_empty in Hi.
Qed.

(** ** Search *)

Lemma find_in_record_with_elem str_lower term r x :
  x ∈ find_in_record_with str_lower term r ↔
  x = r ∧ (contains (str_lower term) (str_lower (value (name r))) = true
           ∨ existsb (λ p, contains term (value p)) (phone_numbers r) = true
           ∨ existsb (λ e, contains term (value e)) (email_addresses r) = true).
Proof.
  unfold find_in_record_with.
  destruct (contains (str_lower term) _).
  - rewrite list_elem_of_singleton. tauto.
  - generalize (existsb (λ p, contains term (value p)) (phone_numbers r)).
    generalize (existsb (λ e, contains term (value e)) (email_addresses r)).
    intros [] []; simpl; rewrite ?elem_of_cons, ?elem_of_nil; intuition congruence.
Qed.

(** A contact whose name holds the term is returned. *)
Lemma find_record_with_by_name str_lower (b : AddressBook) (term : string)
    (r : ContactRecord) :
  r ∈ PyDict.values (data b) →
  contains (str_lower term) (str_lower (value (name r))) = true →
  r ∈ find_record_with str_lower b term.
Proof.
  intros Hr Hc. unfold find_record_with. rewrite list_elem_of_In, in_flat_map.
  exists r. split; [by apply list_elem_of_In|].
  apply list_elem_of_In, find_in_record_with_elem. split; [done|by left].
Qed.

(** The search of the model is the one that lowers the letters A to Z. *)
Lemma find_record_with_lower (b : AddressBook) (term : string) :
  find_record b term = find_record_with lower b term.
Proof. reflexivity. Qed.

(** X7. Whatever [str.lower] does to the letters, [find_record] returns
    the contacts of the book whose lower-cased name holds the lower-cased
    term, or one of whose phone numbers or email addresses holds the term
    as it is written, and no other. *)
Theorem find_record_matches (str_lower : string → string)
    (b : AddressBook) (term : string) (r : ContactRecord) :
  r ∈ find_record_with str_lower b term ↔
  r ∈ PyDict.values (data b)
  ∧ (contains (str_lower term) (str_lower (value (name r))) = true
     ∨ (∃ p, p ∈ phone_numbers r ∧ contains term (value p) = true)
     ∨ (∃ e, e ∈ email_addresses r ∧ contains term (value e) = true)).
Proof.
  unfold find_record_with. rewrite list_elem_of_In, in_flat_map.
  assert (∀ (l : list Field),
            existsb (λ f, contains term (value f)) l = true
            ↔ ∃ f, f ∈ l ∧ contains term (value f) = true) as Hex.
  { intros l. rewrite existsb_exists. split; intros (f & Hf & Hc); exists f;
      (split; [by apply list_elem_of_In|done]). }
  split.
  - intros (x & Hx & Hr). apply list_elem_of_In in Hx, Hr.
    apply find_in_record_with_elem in Hr as [-> Hr]. rewrite !Hex in Hr. done.
  - intros [Hr Hm]. exists r. split; [by apply list_elem_of_In|].
    apply list_elem_of_In, find_in_record_with_elem. rewrite !Hex. done.
Qed.

(** X8. With an empty term [find_record] returns every contact of the
    book, once each and in the order of the book. *)
Theorem find_record_empty_term (b : AddressBook) :
  find_record b "" = PyDict.values (data b).
Proof.
  unfold find_record. induction (PyDict.values (data b)) as [|r l IH]; [done|].
  cbn [flat_map]. rewrite IH. unfold find_in_record. cbn [lower].
  by rewrite contains_empty.
Qed.

(** X19. Every contact that [find_records_by_name] returns for a term is
    also returned by [find_record] for it, and with an empty term
    [find_records_by_name] returns the whole book. *)
Theorem find_records_by_name_found (b : AddressBook) (n : string) :
  (find_records_by_name b n).*2 ⊆ find_record b n
  ∧ find_records_by_name b "" = data b.
Proof.
  split.
  - intros r ((k & r') & -> & [Hc Hin]%list_elem_of_filter)%list_elem_of_fmap.
    simpl in *. rewrite find_record_with_lower.
    apply find_record_with_by_name; [|done].
    unfold PyDict.values. apply list_elem_of_fmap. by exists (k, r').
  - unfold find_records_by_name, PyDict.dict. induction (data b) as [|kr d IH]; [done|].
    rewrite filter_cons_True by (cbn [lower]; apply contains_empty). by rewrite IH.
Qed.

(** ** Pages *)

Lemma next_page_some b current :
  0 ≤ current < Z.of_nat (length (data b)) →
  next_page b current
  = Some (take 5 (drop (Z.to_nat current) (PyDict.values (data b))), current + 5).
Proof.
  intros [_ Hlt]. unfold next_page. apply Z.ltb_lt in Hlt. by rewrite Hlt.
Qed.

Lemma next_page_none b current :
  Z.of_nat (length (data b)) ≤ current → next_page b current = None.
Proof.
  intros Hge. unfold next_page. apply Z.ltb_ge in Hge. by rewrite Hge.
Qed.

Lemma values_length {V} (d : PyDict.dict V) : length (PyDict.values d) = length d.
Proof. apply length_fmap. Qed.

(** From [current] on, the pages hold what is left of the book. *)
Lemma pages_from_spec b fuel current :
  0 ≤ current →
  (length (data b) < fuel + Z.to_nat current)%nat →
  concat (pages_from fuel b current) = drop (Z.to_nat current) (PyDict.values (data b))
  ∧ Forall (λ p, 1 ≤ length p ≤ 5)%nat (pages_from fuel b current)
  ∧ Z.of_nat (length (data b))
    ≤ current + 5 * Z.of_nat (length (pages_from fuel b current)).
Proof.
  revert current. induction fuel as [|fuel IH]; intros current Hc Hfuel.
  - simpl. rewrite drop_ge by (rewrite values_length; lia).
    split; [done|]. split; [done|]. simpl in *. lia.
  - cbn [pages_from].
    destruct (decide (current < Z.of_nat (length (data b)))) as [Hlt|Hge].
    + rewrite next_page_some by lia.
      destruct (IH (current + 5)) as (Hcat & Hall & Hend); [lia|lia|].
      cbn [concat length]. split; [|split].
      * rewrite Hcat. replace (Z.to_nat (current + 5)) with (Z.to_nat current + 5)%nat by lia.
        rewrite <- drop_drop. apply take_drop.
      * apply Forall_cons. split; [|done].
        rewrite length_take, length_drop, values_length. lia.
      * lia.
    + rewrite next_page_none by lia.
      rewrite drop_ge by (rewrite values_length; lia).
      split; [done|]. split; [done|]. simpl. lia.
Qed.

(** X9. Going through the book by pages shows every contact once, in the
    order of the book; a page holds from one to five contacts, and the
    pages end because [__next__] raises [StopIteration]. *)
Theorem pages_cover (b : AddressBook) :
  concat (pages b) = PyDict.values (data b)
  ∧ Forall (λ p, 1 ≤ length p ≤ 5)%nat (pages b)
  ∧ next_page b (5 * Z.of_nat (length (pages b))) = None.
Proof.
  unfold pages.
  destruct (pages_from_spec b (S (length (data b))) 0) as (Hcat & Hall & Hend);
    [lia|simpl; lia|].
  split; [done|]. split; [done|]. apply next_page_none. lia.
Qed.

(** ** Notes and tags *)

(** X10. A note added to the notebook stands last, with its text and
    without tags, and deleting the last position gives the notebook back. *)
Theorem add_note_delete_last (now : datetime) (nb : Notebook) (c : string) :
  let nb' := add_note now nb c in
  let last := Z.of_nat (length (notes nb')) in
  notes nb' !! length (notes nb) = Some (mkNote c now [])
  ∧ last = Z.of_nat (length (notes nb)) + 1
  ∧ (delete_note nb' last).1 = nb.
Proof.
  intros nb' last. unfold last, nb', add_note. cbn [notes].
  rewrite length_app. cbn [length].
  split; [|split; [lia|]].
  - rewrite lookup_app_r by lia. by rewrite Nat.sub_diag.
  - rewrite delete_note_inside by (cbn [notes]; rewrite length_app; simpl; lia).
    cbn [notes fst].
    replace (Z.to_nat (Z.of_nat (length (notes nb) + 1) - 1)) with (length (notes nb))
      by lia.
    rewrite delete_middle, app_nil_r. by destruct nb.
Qed.

(** X11. After [delete_note] at a position inside the notebook, the notes
    before it are where they were and every later note has moved one
    position down. *)
Theorem delete_note_shifts (nb : Notebook) (pos : Z) (j : nat) :
  1 ≤ pos ≤ Z.of_nat (length (notes nb)) →
  notes (delete_note nb pos).1 !! j
  = if decide (Z.of_nat j < pos - 1) then notes nb !! j else notes nb !! S j.
Proof.
  intros Hpos. rewrite delete_note_inside by done. cbn [notes fst].
  case_decide.
  - apply list_lookup_delete_lt. lia.
  - apply list_lookup_delete_ge. lia.
Qed.

(** The first of two notes deleted: the second is now the first. *)
Lemma delete_note_shifts_witness :
  1 ≤ 1 ≤ Z.of_nat (length (notes errands))
  ∧ notes (delete_note errands 1).1 !! 0%nat
    = if decide (Z.of_nat 0 < 1 - 1) then notes errands !! 0%nat
      else notes errands !! 1%nat.
Proof.
  assert (1 ≤ 1 ≤ Z.of_nat (length (notes errands))) as Hpos by (simpl; lia).
  split; [exact Hpos|]. exact (delete_note_shifts errands 1 0 Hpos).
Defined.

Lemma add_tag_outside nb pos tag :
  pos < 1 ∨ Z.of_nat (length (notes nb)) < pos →
  add_tag nb pos tag = (nb, "Nieprawidłowy numer notatki.").
Proof.
  intros H. unfold add_tag.
  destruct (1 <=? pos) eqn:H1; [|done].
  destruct (pos <=? Z.of_nat (length (notes nb))) eqn:H2; [|done].
  apply Z.leb_le in H1, H2. lia.
Qed.

(** X12. [Tag.add_tag] refuses the position, leaving the notebook as it
    is, exactly when it is outside 1..len; inside, the notebook keeps its
    length, the note at the position gets the tag at the end of its tags,
    and the other notes are untouched. *)
Theorem add_tag_range (nb : Notebook) (pos : Z) (tag : string) :
  let len := Z.of_nat (length (notes nb)) in
  (no_such_note nb (add_tag nb pos tag) ↔ pos < 1 ∨ len < pos)
  ∧ length (notes (add_tag nb pos tag).1) = length (notes nb)
  ∧ ∀ j : nat,
      notes (add_tag nb pos tag).1 !! j
      = if decide (1 ≤ pos ∧ Z.of_nat j = pos - 1)
        then (λ note, note_add_tag note tag) <$> notes nb !! j
        else notes nb !! j.
Proof.
  intros len. destruct (decide (1 ≤ pos ≤ len)) as [Hin|Hout].
  - rewrite add_tag_inside by done. cbn [notes fst]. split; [|split].
    + split; [|lia]. unfold no_such_note. intros Heq. simplify_eq.
    + apply length_alter.
    + intros j. case_decide as Hj.
      * replace (Z.to_nat (pos - 1)) with j by lia. apply list_lookup_alter_eq.
      * apply list_lookup_alter_ne. lia.
  - rewrite add_tag_outside by lia. cbn [fst]. split; [|split; [done|]].
    + split; [lia|done].
    + intros j. case_decide as Hj; [|done].
      rewrite lookup_ge_None_2 by lia. done.
Qed.

Lemma filter_alter_fmap {A B} (P : A → Prop) `{∀ x, Decision (P x)}
    (f : A → A) (g : A → B) (i : nat) (l : list A) :
  (∀ x, P (f x) ↔ P x) → (∀ x, g (f x) = g x) →
  g <$> filter P (alter f i l) = g <$> filter P l.
Proof.
  intros HP Hg. revert i. induction l as [|x l IH]; intros [|i]; try done.
  - cbn [alter list_alter]. rewrite !filter_cons.
    destruct (decide (P (f x))) as [Hf|Hf], (decide (P x)) as [Hx|Hx];
      [by rewrite !fmap_cons, Hg|exfalso; by apply Hx, HP|exfalso; by apply Hf, HP|done].
  - cbn [alter list_alter]. rewrite !filter_cons.
    destruct (decide (P x)); rewrite ?fmap_cons; [f_equal|]; apply IH.
Qed.

(** X13. After [Tag.add_tag] at a position inside the notebook, the note
    is found under the tag; under any other tag the same notes are found
    as before. *)
Theorem add_tag_search (nb : Notebook) (pos : Z) (tag : string) (note : Note) :
  notes nb !! Z.to_nat (pos - 1) = Some note → 1 ≤ pos →
  note_add_tag note tag ∈ search_tag (add_tag nb pos tag).1 tag
  ∧ ∀ t, t ≠ tag →
      (λ n, (content n, created_at n)) <$> search_tag (add_tag nb pos tag).1 t
      = (λ n, (content n, created_at n)) <$> search_tag nb t.
Proof.
  intros Hnote Hpos.
  assert (1 ≤ pos ≤ Z.of_nat (length (notes nb))) as Hin.
  { apply lookup_lt_Some in Hnote. lia. }
  rewrite add_tag_inside by done. unfold search_tag. cbn [notes fst]. split.
  - apply list_elem_of_filter. split.
    + simpl. apply elem_of_app. right. by apply list_elem_of_singleton.
    + apply list_elem_of_lookup. exists (Z.to_nat (pos - 1)).
      by rewrite list_lookup_alter_eq, Hnote.
  - intros t Ht. apply filter_alter_fmap; [|done].
    intros n. simpl. rewrite elem_of_app, list_elem_of_singleton.
    split; [intros [Hn|Heq]; [done|by destruct Ht]|by left].
Qed.

(** The first of two notes tagged. *)
Lemma add_tag_search_witness :
  notes errands !! Z.to_nat (1 - 1) = Some (mkNote "milk" noon [])
  ∧ 1 ≤ 1
  ∧ note_add_tag (mkNote "milk" noon []) "shop" ∈ search_tag (add_tag errands 1 "shop").1 "shop"
  ∧ ∀ t, t ≠ "shop" →
      (λ n, (content n, created_at n)) <$> search_tag (add_tag errands 1 "shop").1 t
      = (λ n, (content n, created_at n)) <$> search_tag errands t.
Proof.
  assert (notes errands !! Z.to_nat (1 - 1) = Some (mkNote "milk" noon [])) as Hn
    by reflexivity.
  assert (1 ≤ 1) as H1 by lia.
  split; [exact Hn|]. split; [exact H1|].
  exact (add_tag_search errands 1 "shop" _ Hn H1).
Defined.

(** X14. The groups of [sort_tags] are the searches that find something:
    a tag stands with a list in the dictionary exactly when that list is
    what [search_tag] returns for it and is not empty. *)
Theorem sort_tags_search_tag (nb : Notebook) (t : string) (ns : list Note) :
  (t, ns) ∈ sort_tags nb ↔ ns = search_tag nb t ∧ ns ≠ [].
Proof.
  assert (t ∈ (sort_tags nb).*1 ↔ search_tag nb t ≠ []) as Hkey.
  { rewrite sort_tags_keys, elem_of_sorted_set, list_elem_of_bind.
    unfold search_tag. split.
    - intros (note & Ht & Hnote) Hnil.
      assert (note ∈ filter (λ n, t ∈ tags n) (notes nb)) as Hin
        by (by apply list_elem_of_filter).
      rewrite Hnil in Hin. by apply elem_of_nil in Hin.
    - intros Hne. destruct (filter _ _) as [|note l] eqn:Hf; [done|].
      assert (note ∈ filter (λ n, t ∈ tags n) (notes nb)) as Hin
        by (rewrite Hf; apply elem_of_cons; by left).
      apply list_elem_of_filter in Hin as [Ht Hnote]. by exists note. }
  split.
  - intros Hin. assert (t ∈ (sort_tags nb).*1) as Hk.
    { apply list_elem_of_fmap. by exists (t, ns). }
    unfold sort_tags in Hin. apply list_elem_of_fmap in Hin as (t' & [= -> ->] & _).
    split; [done|]. by apply Hkey.
  - intros [-> Hne]. apply Hkey in Hne. rewrite sort_tags_keys in Hne.
    unfold sort_tags. apply list_elem_of_fmap. by exists t.
Qed.

(** ** Birthdays *)

Lemma new_date_valid y m d :
  valid_date (mkDate y m d) → new_date y m d = Ok (mkDate y m d).
Proof.
  unfold valid_date, new_date. simpl. intros (Hy & Hm & Hd).
  replace (_ && _) with true; [done|].
  symmetry. rewrite !andb_true_iff. repeat split; apply Z.leb_le; lia.
Qed.

Lemma strptime_valid s t : strptime s = Ok t → valid_date (date_of t).
Proof.
  unfold strptime. destruct (rmatch _ _ _ _) as [[rest g]|]; [|discriminate].
  case_bool_decide; [|discriminate].
  destruct (new_date _ _ _) as [d|] eqn:Hd; [|discriminate].
  intros [= <-]. by apply new_date_ok in Hd as [_ Hd].
Qed.

(** But for 29 February, a day of a month is one in every year. *)
Lemma days_in_month_any_year y1 y2 m d :
  1 ≤ m ≤ 12 → d ≤ days_in_month y1 m → ¬ (m = 2 ∧ d = 29) →
  d ≤ days_in_month y2 m.
Proof.
  unfold days_in_month. intros Hm Hd Hleap.
  destruct (is_leap y1), (is_leap y2); months m Hm; simpl in *; lia.
Qed.

Lemma toordinal_year_later_le y m d :
  1 ≤ m ≤ 12 →
  toordinal (mkDate (y + 1) m d) - toordinal (mkDate y m d) ≤ 366.
Proof.
  intros Hm. unfold toordinal. cbn [year month day].
  rewrite days_before_year_succ. unfold days_before_month.
  assert (is_leap y = true → is_leap (y + 1) = false) as Hleap.
  { unfold is_leap. rewrite !andb_true_iff, andb_false_iff, !Z.eqb_eq, Z.eqb_neq.
    intros [H4 _]. left. Z.div_mod_to_equations. lia. }
  destruct (is_leap y); [rewrite Hleap by done|destruct (is_leap (y + 1))];
    months m Hm; simpl; lia.
Qed.

Lemma date_gt_irrefl d : date_gt d d = false.
Proof.
  destruct d as [y m dd]. apply not_true_iff_false.
  unfold date_gt, date_fields. cbn [year month day]. rewrite tuple_gt_3. lia.
Qed.

(** The two ways through the loop body of [upcoming_birthdays]. *)
Lemma days_to_cases today b n :
  days_to today b = Ok n →
  ∃ t, strptime (value b) = Ok t
    ∧ let this := mkDate (year today) (month (date_of t)) (day (date_of t)) in
      let next := mkDate (year today + 1) (month (date_of t)) (day (date_of t)) in
      valid_date this
      ∧ ((date_gt today this = false ∧ n = toordinal this - toordinal today)
         ∨ (date_gt today this = true ∧ valid_date next
            ∧ n = toordinal next - toordinal today)).
Proof.
  unfold days_to. destruct (strptime (value b)) as [t|]; [|discriminate].
  cbn [bind]. unfold date_replace_year.
  destruct (new_date (year today) _ _) as [nb|] eqn:Hnb; [|discriminate].
  cbn [bind]. apply new_date_ok in Hnb as [-> Hv].
  cbn [month day].
  destruct (date_gt today _) eqn:Hgt.
  - destruct (new_date (year today + 1) _ _) as [nb'|] eqn:Hnb'; [|discriminate].
    cbn [bind]. apply new_date_ok in Hnb' as [-> Hv']. rewrite date_sub_days.
    intros [= <-]. exists t. split; [done|]. split; [exact Hv|]. by right.
  - cbn [bind]. rewrite date_sub_days. intros [= <-].
    exists t. split; [done|]. split; [exact Hv|]. by left.
Qed.

(** X15. The count of days that [upcoming_birthdays] makes for a birth
    date lies between 0 and 365, and it is 0 exactly when the month and
    the day of the birth date are those of today. *)
Theorem days_to_range (today : date) (b : BirthDate) (n : Z) :
  valid_date today → days_to today b = Ok n →
  0 ≤ n ≤ 365
  ∧ ∃ t, strptime (value b) = Ok t
      ∧ (n = 0 ↔ month (date_of t) = month today ∧ day (date_of t) = day today).
Proof.
  intros Hv (t & Ht & Hthis & Hcase)%days_to_cases.
  destruct today as [y m d]. cbn [year month day] in *.
  pose proof (day_of_year_bound _ _ _ Hv) as Hdoy.
  pose proof (day_of_year_bound _ _ _ Hthis) as Hdoy'.
  remember (month (date_of t)) as m' eqn:Hm'.
  remember (day (date_of t)) as d' eqn:Hd'.
  destruct Hcase as [[Hgt ->]|(Hgt & Hnext & ->)].
  - apply not_true_iff_false in Hgt.
    unfold date_gt, date_fields in Hgt. cbn [year month day] in Hgt.
    rewrite tuple_gt_3 in Hgt.
    destruct (toordinal_same_year y m d m' d' Hv Hthis) as [Hord Heq]; [lia|].
    split; [unfold toordinal in *; cbn [year month day] in *;
            destruct (is_leap y); lia|].
    exists t. split; [done|]. rewrite <- Hm', <- Hd'. split.
    + intros H0. destruct Heq as [-> ->]; [lia|done].
    + intros [-> ->]. lia.
  - unfold date_gt, date_fields in Hgt. cbn [year month day] in Hgt.
    rewrite tuple_gt_3 in Hgt.
    destruct (toordinal_same_year y m' d' m d Hthis Hv) as [Hord Heq]; [lia|].
    assert (toordinal (mkDate y m' d') ≠ toordinal (mkDate y m d)) as Hne.
    { intros Hsame. destruct (Heq Hsame) as [-> ->]. lia. }
    destruct Hthis as (_ & Hmonth & _). cbn [month] in Hmonth.
    pose proof (toordinal_year_later_le y m' d' Hmonth).
    pose proof (toordinal_next_year y m d m' d' Hv Hnext).
    split; [lia|]. exists t. split; [done|]. rewrite <- Hm', <- Hd'.
    split; [lia|]. intros [-> ->]. lia.
Qed.

(** The day before the birthday. *)
Lemma days_to_range_witness :
  valid_date (mkDate 2024 6 15)
  ∧ days_to (mkDate 2024 6 15) (mkField "2000-06-16") = Ok 1
  ∧ 0 ≤ 1 ≤ 365
  ∧ ∃ t, strptime "2000-06-16" = Ok t
      ∧ (1 = 0 ↔ month (date_of t) = 6 ∧ day (date_of t) = 15).
Proof.
  assert (valid_date (mkDate 2024 6 15)) as Hv by (vm_compute; intuition discriminate).
  assert (days_to (mkDate 2024 6 15) (mkField "2000-06-16") = Ok 1) as Hd
    by (vm_compute; reflexivity).
  split; [exact Hv|]. split; [exact Hd|].
  exact (days_to_range (mkDate 2024 6 15) (mkField "2000-06-16") 1 Hv Hd).
Defined.

Lemma days_to_returns today b :
  valid_date today → year today < MAXYEAR → plain_birthdate b →
  ∃ k, days_to today b = Ok k.
Proof.
  intros (Hy & _) Hlast (t & Ht & Hplain).
  pose proof (strptime_valid _ _ Ht) as (_ & Hm & Hd).
  unfold days_to, date_replace_year. rewrite Ht. cbn [bind].
  assert (∀ y, MINYEAR ≤ y ≤ MAXYEAR →
            valid_date (mkDate y (month (date_of t)) (day (date_of t)))) as Hvalid.
  { intros y Hyr. split; [done|]. split; [done|]. cbn [year month day].
    split; [lia|]. eapply days_in_month_any_year; [done|apply Hd|done]. }
  rewrite (new_date_valid (year today)) by (apply Hvalid; lia). cbn [bind month day].
  destruct (date_gt today _).
  - rewrite new_date_valid by (apply Hvalid; unfold MINYEAR, MAXYEAR in *; lia).
    cbn [bind]. by eexists.
  - cbn [bind]. by eexists.
Qed.

(** X16. Before the year 9999, on a book whose birth dates read as dates
    other than 29 February, [upcoming_birthdays] raises nothing and names
    exactly the contacts whose next birthday is at most [window] days
    away; with a window of 0 these have their birthday today. *)
Theorem upcoming_birthdays_plain (today : date) (b : AddressBook) (window : Z) :
  valid_date today → year today < MAXYEAR →
  (∀ r bd, r ∈ PyDict.values (data b) → birthdate r = Some bd → plain_birthdate bd) →
  ∃ names,
    upcoming_birthdays today b window = Ok names
    ∧ (∀ n, n ∈ names ↔
         ∃ r bd k, r ∈ PyDict.values (data b) ∧ birthdate r = Some bd
                   ∧ days_to today bd = Ok k ∧ 0 ≤ k ≤ window
                   ∧ n = value (name r))
    ∧ (window = 0 → ∀ n, n ∈ names →
         ∃ r bd t, r ∈ PyDict.values (data b) ∧ birthdate r = Some bd
                   ∧ n = value (name r) ∧ strptime (value bd) = Ok t
                   ∧ month (date_of t) = month today
                   ∧ day (date_of t) = day today).
Proof.
  intros Hv Hlast Hplain. apply upcoming_birthdays_names; [done|].
  intros r bd Hr Hbd. apply days_to_returns; [done|done|]. by apply (Hplain r).
Qed.

(** Two contacts, neither born on 29 February. *)
Lemma upcoming_birthdays_plain_witness :
  valid_date (mkDate 2023 6 15) ∧ year (mkDate 2023 6 15) < MAXYEAR
  ∧ (∀ r bd, r ∈ PyDict.values (data two_contacts) → birthdate r = Some bd →
             plain_birthdate bd)
  ∧ ∃ names,
      upcoming_birthdays (mkDate 2023 6 15) two_contacts 0 = Ok names
      ∧ (∀ n, n ∈ names ↔
           ∃ r bd k, r ∈ PyDict.values (data two_contacts) ∧ birthdate r = Some bd
                     ∧ days_to (mkDate 2023 6 15) bd = Ok k ∧ 0 ≤ k ≤ 0
                     ∧ n = value (name r))
      ∧ (0 = 0 → ∀ n, n ∈ names →
           ∃ r bd t, r ∈ PyDict.values (data two_contacts) ∧ birthdate r = Some bd
                     ∧ n = value (name r) ∧ strptime (value bd) = Ok t
                     ∧ month (date_of t) = month (mkDate 2023 6 15)
                     ∧ day (date_of t) = day (mkDate 2023 6 15)).
Proof.
  assert (valid_date (mkDate 2023 6 15)) as Hv by (vm_compute; intuition discriminate).
  assert (year (mkDate 2023 6 15) < MAXYEAR) as Hlast by reflexivity.
  assert (∀ r bd, r ∈ PyDict.values (data two_contacts) → birthdate r = Some bd →
                  plain_birthdate bd) as Hplain.
  { intros r bd Hr Hbd.
    change (PyDict.values (data two_contacts))
      with [set_id 1 (born "Ann" "2000-06-15"); set_id 2 (born "Bob" "1999-01-31")] in Hr.
    apply elem_of_cons in Hr as [->|Hr]; [|apply list_elem_of_singleton in Hr as ->];
      injection Hbd as <-.
    - exists (mkDatetime (mkDate 2000 6 15) 0 0 0 0). split; [by vm_compute|].
      simpl. lia.
    - exists (mkDatetime (mkDate 1999 1 31) 0 0 0 0). split; [by vm_compute|].
      simpl. lia. }
  split; [exact Hv|]. split; [exact Hlast|]. split; [exact Hplain|].
  exact (upcoming_birthdays_plain (mkDate 2023 6 15) two_contacts 0 Hv Hlast Hplain).
Defined.

Lemma days_to_birthdate_le now r n :
  valid_datetime now → days_to_birthdate now r = Ok (Days n) → n ≤ 365.
Proof.
  intros Hv. pose proof Hv as (Hvd & Hh & Hmi & Hs & Hus).
  unfold days_to_birthdate.
  destruct (birthdate r) as [b|]; [|discriminate].
  case_bool_decide; [discriminate|].
  destruct (strptime (value b)) as [t|] eqn:Ht; [|discriminate]. cbn [bind].
  apply strptime_midnight in Ht as (Hth & Htm & Hts & Htu).
  unfold replace_year, date_replace_year. cbn [date_of month day].
  destruct (new_date (year (date_of now)) _ _) as [nb|] eqn:Hnb; [|discriminate].
  cbn [bind hour minute second microsecond date_of month day].
  rewrite Hth, Htm, Hts, Htu.
  apply new_date_ok in Hnb as [Hnb Hvnb].
  destruct (datetime_gt now _) eqn:Hgt.
  - destruct (new_date (year (date_of now) + 1) _ _) as [nb'|] eqn:Hnb'; [|discriminate].
    cbn [bind]. apply new_date_ok in Hnb' as [Hnb' Hvnb']. intros [= <-].
    rewrite datetime_gt_midnight in Hgt by done.
    unfold datetime_sub, new_timedelta, day_seconds in *.
    cbn [days date_of hour minute second microsecond].
    destruct (date_of now) as [y m d] eqn:Hnow. subst nb nb'.
    cbn [year month day] in *.
    remember (month (date_of t)) as m' eqn:Hm'.
    remember (day (date_of t)) as d' eqn:Hd'.
    assert (1 ≤ m' ≤ 12) as Hmonth by apply Hvnb.
    pose proof (toordinal_year_later_le y m' d' Hmonth) as Hyear.
    destruct Hgt as [Hgt|[Hsame Hlate]].
    + unfold date_gt, date_fields in Hgt. cbn [year month day] in Hgt.
      rewrite tuple_gt_3 in Hgt.
      destruct (toordinal_same_year y m' d' m d Hvnb Hvd) as [Hord Heq]; [lia|].
      assert (toordinal (mkDate y m' d') ≠ toordinal (mkDate y m d)) as Hne.
      { intros Hs'. destruct (Heq Hs') as [-> ->]. lia. }
      Z.div_mod_to_equations. lia.
    + injection Hsame as <- <-. Z.div_mod_to_equations. lia.
  - cbn [bind]. intros [= <-].
    unfold datetime_sub, new_timedelta, day_seconds in *.
    cbn [days date_of hour minute second microsecond].
    destruct (date_of now) as [y m d] eqn:Hnow. subst nb.
    cbn [year month day] in *.
    pose proof (day_of_year_bound _ _ _ Hvd) as Hdoy.
    pose proof (day_of_year_bound _ _ _ Hvnb) as Hdoy'.
    unfold toordinal. cbn [year month day].
    destruct (is_leap y); Z.div_mod_to_equations; lia.
Qed.

(** X17. When [days_to_birthdate] returns a number, it lies between 0 and
    365; on the birthday itself, once midnight has passed, it is 364 or
    365 and not 0. *)
Theorem days_to_birthdate_range (now : datetime) (r : ContactRecord) (n : Z) :
  valid_datetime now → days_to_birthdate now r = Ok (Days n) →
  0 ≤ n ≤ 365
  ∧ ∀ b t, birthdate r = Some b → strptime (value b) = Ok t →
      month (date_of t) = month (date_of now) →
      day (date_of t) = day (date_of now) →
      0 < day_seconds now * 1000000 + microsecond now →
      364 ≤ n.
Proof.
  intros Hv Hn. split.
  - split; [by eapply days_to_birthdate_nonneg|by eapply days_to_birthdate_le].
  - intros b t Hb Ht Hm Hd Hlate. by eapply days_to_birthdate_on_the_day.
Qed.

(** Noon on the birthday. *)
Lemma days_to_birthdate_range_witness :
  valid_datetime noon
  ∧ days_to_birthdate noon (born "Ann" "2000-06-15") = Ok (Days 364)
  ∧ 0 ≤ 364 ≤ 365
  ∧ ∀ b t, birthdate (born "Ann" "2000-06-15") = Some b → strptime (value b) = Ok t →
      month (date_of t) = month (date_of noon) →
      day (date_of t) = day (date_of noon) →
      0 < day_seconds noon * 1000000 + microsecond noon →
      364 ≤ 364.
Proof.
  assert (valid_datetime noon) as Hv by (vm_compute; intuition discriminate).
  assert (days_to_birthdate noon (born "Ann" "2000-06-15") = Ok (Days 364)) as Hn
    by (vm_compute; reflexivity).
  split; [exact Hv|]. split; [exact Hn|].
  exact (days_to_birthdate_range noon (born "Ann" "2000-06-15") 364 Hv Hn).
Defined.

(** ** Phone numbers *)

Lemma at_end_text rest : Unicode.at_end rest = true ↔ rest = [] ∨ rest = [10].
Proof.
  unfold Unicode.at_end. rewrite orb_true_iff, !bool_decide_eq_true. done.
Qed.

Lemma pmatch_phone T s g :
  Unicode.pmatch T Unicode.re_phone s g
    (λ rest _, if Unicode.at_end rest then Some () else None) = Some () ↔
  ∃ t rest, s = t ++ rest ∧ decimal_digits T 9 t ∧ (rest = [] ∨ rest = [10]).
Proof.
  unfold Unicode.re_phone. split.
  - intros Hm.
    do 8 (rewrite pmatch_cat in Hm; apply pmatch_digit in Hm as (? & ? & -> & ? & Hm)).
    apply pmatch_digit in Hm as (? & rest & -> & ? & Hm).
    destruct (Unicode.at_end rest) eqn:He; [|discriminate].
    eexists [_; _; _; _; _; _; _; _; _], rest. split; [reflexivity|].
    split; [|by apply at_end_text].
    split; [done|]. repeat (apply Forall_cons_2; [done|]). apply Forall_nil_2.
  - intros (t & rest & -> & [Hl Hd] & Hrest).
    do 10 (destruct t as [|? t]; try discriminate).
    do 9 (apply Forall_cons in Hd as [? Hd]).
    do 8 (rewrite pmatch_cat; apply pmatch_digit;
          eexists _, _; split; [reflexivity|]; split; [done|]).
    apply pmatch_digit. eexists _, _. split; [reflexivity|]. split; [done|].
    apply at_end_text in Hrest. by rewrite Hrest.
Qed.

(** X18. Whatever the table of the decimal digits, [validate_phone]
    accepts exactly the texts of nine decimal digits and those of nine
    decimal digits followed by one newline; the digits need not be 0 to 9:
    nine Arabic-Indic digits make a phone number. *)
Theorem validate_phone_decimal_digits (T : digit_table) (s : text) :
  (Unicode.validate_phone T s = true ↔
     decimal_digits T 9 s ∨ ∃ t, s = t ++ [10] ∧ decimal_digits T 9 t)
  ∧ Unicode.validate_phone sample_digits (text_of "123456789") = true
  ∧ Unicode.validate_phone sample_digits (text_of "12345678") = false
  ∧ Unicode.validate_phone sample_digits
      [1633; 1634; 1635; 1636; 1637; 1638; 1639; 1640; 1641] = true.
Proof.
  split; [|split_and!; by vm_compute].
  unfold Unicode.validate_phone.
  destruct (Unicode.pmatch T Unicode.re_phone s ∅ _) as [[]|] eqn:Hm.
  - split; [intros _|done].
    apply pmatch_phone in Hm as (t & rest & -> & Ht & [->| ->]).
    + left. by rewrite app_nil_r.
    + right. by exists t.
  - split; [discriminate|]. intros Hs.
    assert (Unicode.pmatch T Unicode.re_phone s ∅
              (λ rest _, if Unicode.at_end rest then Some () else None) = Some ())
      as Hm'; [|congruence].
    apply pmatch_phone. destruct Hs as [Hs|(t & -> & Ht)].
    + exists s, []. rewrite app_nil_r. auto.
    + exists t, [10]. auto.
Qed.
